(** * mypy/semanal_pass1.py: block and import reachability pre-analysis

    A shallow embedding of [SemanticAnalyzerPreAnalysis] and the properties
    of its single pass over a module.

    The visitor mutates the tree it walks (import tags, block tags, the
    top-level statement list).  Here every [visit_*] method is a state
    transformer over the visitor object that also returns the node as it is
    after the call. *)

From stdpp Require Import gmap strings list list_numbers.

#[local] Set Warnings "-register-all".

(** ** Options (mypy.options.Options), the part the pass reads. *)
Module Options.
Record t : Type := mk {
  platform : string;
  python_version : Z * Z
}.
End Options.

(** [set(range(lo, hi + 1))] *)
Definition line_range (lo hi : Z) : gset Z :=
  list_to_set (seqZ lo (hi + 1 - lo)).

Module PreAnalysis.

Section Walker.

(** Expressions are opaque to the pass: only the reachability functions of
    mypy.reachability look inside them. *)
Context {Expression : Type}.

(** ** Nodes (mypy.nodes), the classes the module imports.

    [line] and [end_line] are [Context.line] and [Context.end_line];
    [end_line] is [None] when the parser gave no end position. *)
Inductive Statement : Type :=
  | AssignmentStmt (line : Z) (end_line : option Z)
      (lvalues : list Expression) (rvalue : Expression)
  | ExpressionStmt (line : Z) (end_line : option Z) (expr : Expression)
  | ReturnStmt (line : Z) (end_line : option Z) (expr : option Expression)
  | AssertStmt (line : Z) (end_line : option Z)
      (expr : Expression) (msg : option Expression)
  | IfStmt (line : Z) (end_line : option Z)
      (expr : list Expression) (body : list Block) (else_body : option Block)
  | ForStmt (line : Z) (end_line : option Z)
      (index : Expression) (expr : Expression)
      (body : Block) (else_body : option Block)
  | MatchStmt (line : Z) (end_line : option Z) (subject : Expression)
      (guards : list (option Expression)) (bodies : list Block)
  | Import (line : Z) (end_line : option Z)
      (ids : list (string * option string)) (is_top_level : bool)
  | ImportFrom (line : Z) (end_line : option Z) (id : string) (relative : Z)
      (names : list (string * option string)) (is_top_level : bool)
  | ImportAll (line : Z) (end_line : option Z) (id : string) (relative : Z)
      (is_top_level : bool)
  | FuncDef (line : Z) (end_line : option Z) (name : string) (body : Block)
  | ClassDef (line : Z) (end_line : option Z) (name : string) (defs : Block)
  | BlockStmt (b : Block)
  | OtherStmt (line : Z) (end_line : option Z)
      (children : list (Expression + Statement))
with Block : Type :=
  | mkBlock (line : Z) (end_line : option Z)
      (body : list Statement) (is_unreachable : bool).

Definition Block_line (b : Block) : Z :=
  match b with mkBlock l _ _ _ => l end.
Definition Block_end_line (b : Block) : option Z :=
  match b with mkBlock _ e _ _ => e end.
Definition Block_body (b : Block) : list Statement :=
  match b with mkBlock _ _ body _ => body end.
Definition Block_is_unreachable (b : Block) : bool :=
  match b with mkBlock _ _ _ u => u end.

Definition line (s : Statement) : Z :=
  match s with
  | AssignmentStmt l _ _ _ | ExpressionStmt l _ _ | ReturnStmt l _ _
  | AssertStmt l _ _ _ | IfStmt l _ _ _ _ | ForStmt l _ _ _ _ _
  | MatchStmt l _ _ _ _ | Import l _ _ _ | ImportFrom l _ _ _ _ _
  | ImportAll l _ _ _ _ | FuncDef l _ _ _ | ClassDef l _ _ _
  | OtherStmt l _ _ => l
  | BlockStmt b => Block_line b
  end.

Definition end_line (s : Statement) : option Z :=
  match s with
  | AssignmentStmt _ e _ _ | ExpressionStmt _ e _ | ReturnStmt _ e _
  | AssertStmt _ e _ _ | IfStmt _ e _ _ _ | ForStmt _ e _ _ _ _
  | MatchStmt _ e _ _ _ | Import _ e _ _ | ImportFrom _ e _ _ _ _
  | ImportAll _ e _ _ _ | FuncDef _ e _ _ | ClassDef _ e _ _
  | OtherStmt _ e _ => e
  | BlockStmt b => Block_end_line b
  end.

(** [isinstance(defn, AssertStmt)] *)
Definition is_AssertStmt (s : Statement) : bool :=
  match s with AssertStmt _ _ _ _ => true | _ => false end.

(** [MypyFile]: the fields the pass reads or writes. *)
Record MypyFile : Type := mkMypyFile {
  defs : list Statement;
  path : string;
  is_stub : bool;
  is_partial_stub_package : bool;
  file_skipped_lines : gset Z
}.

(** ** What the module imports from files that are not part of the sources *)

(** Modelled from the spec: [mypy.reachability.infer_reachability_of_if_statement]
    is missing.  It is the oracle entry point
    [reachability_of_conditional(construct, config) -> (per-arm tag, else tag)];
    a [true] tag marks the block unreachable, a [false] tag leaves the block
    as it is (live or undetermined). *)
Variable infer_reachability_of_if_statement :
  Statement -> Options.t -> list bool * bool.

(** Modelled from the spec: [mypy.reachability.infer_reachability_of_match_statement]
    is missing: [reachability_of_match(construct, config) -> per-case tags]. *)
Variable infer_reachability_of_match_statement :
  Statement -> Options.t -> list bool.

(** [mypy.reachability.assert_will_always_fail] is missing: the oracle's
    failing-assertion predicate, a pure function of its inputs. *)
Variable assert_will_always_fail : Statement -> Options.t -> bool.

(** [MypyFile.is_package_init_file] is missing: whether the module is a
    package initializer; it reads the file's path only. *)
Variable is_package_init_file : string -> bool.

(** The oracle's marking of one block: [true] sets the tag, [false] leaves it. *)
Definition mark_block_unreachable (dead : bool) (b : Block) : Block :=
  match b with mkBlock l e body u => mkBlock l e body (u || dead) end.

(** ** The visitor object

    [accepted] is not an attribute of the class: it lists the expressions
    whose [accept] the walker called, in call order.  The inherited
    [TraverserVisitor] methods for expressions change no attribute of this
    class, so this list is all that a visit of an expression leaves behind.

    [cur_mod_node] carries what the walker reads and writes through
    [self.cur_mod_node]: the path, the stub marker and the stub-package
    flag.  In Python the module's statements are the very nodes the walker
    tags; here a visit returns the node as it leaves it, and [visit_file]
    stores the visited statements in the module when its loop ends.  Until
    then [defs (cur_mod_node self)] is the list as [visit_file] received it,
    and no property below reads it from a visitor in the middle of a walk. *)
Record Visitor : Type := mkVisitor {
  platform : string;
  cur_mod_id : string;
  cur_mod_node : MypyFile;
  options : Options.t;
  is_global_scope : bool;
  skipped_lines : gset Z;
  accepted : list Expression
}.

(** A method body: reads and writes [self], returns a value. *)
Definition M (A : Type) : Type := Visitor -> A * Visitor.

#[global] Instance M_ret : MRet M := fun A (a : A) self => (a, self).
#[global] Instance M_bind : MBind M := fun A B (k : A -> M B) (m : M A) self =>
  let '(a, self') := m self in k a self'.

Definition ret {A} (a : A) : M A := mret a.

Definition gets {A} (f : Visitor -> A) : M A := fun self => (f self, self).

Definition set_is_global_scope (b : bool) : M unit := fun self =>
  (tt, mkVisitor (platform self) (cur_mod_id self) (cur_mod_node self)
         (options self) b (skipped_lines self) (accepted self)).

(** [self.skipped_lines |= lines] *)
Definition add_skipped_lines (lines : gset Z) : M unit := fun self =>
  (tt, mkVisitor (platform self) (cur_mod_id self) (cur_mod_node self)
         (options self) (is_global_scope self) (skipped_lines self ∪ lines)
         (accepted self)).

(** [file_node.is_partial_stub_package = True], [file_node] being
    [self.cur_mod_node]. *)
Definition set_is_partial_stub_package : M unit := fun self =>
  let f := cur_mod_node self in
  (tt, mkVisitor (platform self) (cur_mod_id self)
         (mkMypyFile (defs f) (path f) (is_stub f) true (file_skipped_lines f))
         (options self) (is_global_scope self) (skipped_lines self)
         (accepted self)).

(** Modelled from the spec: [expr.accept(self)].  The inherited methods for
    expressions (mypy/traverser.py) are missing; guard expressions are
    "side-effect-free" for this pass, so a visit only goes on record. *)
Definition accept_expr (e : Expression) : M unit := fun self =>
  (tt, mkVisitor (platform self) (cur_mod_id self) (cur_mod_node self)
         (options self) (is_global_scope self) (skipped_lines self)
         (accepted self ++ [e])).

(** [for x in xs: f(x)], returning the elements as they are afterwards. *)
Definition mapM {A B} (f : A -> M B) : list A -> M (list B) :=
  fix go (xs : list A) : M (list B) :=
    match xs with
    | [] => ret []
    | x :: xs' => y ← f x; ys ← go xs'; ret (y :: ys)
    end.

(** [if x is not None: f(x)] *)
Definition optM {A B} (f : A -> M B) (o : option A) : M (option B) :=
  match o with
  | Some x => y ← f x; ret (Some y)
  | None => ret None
  end.

(** [for body in bodies: body.accept(self)] after the oracle has marked the
    i-th body with the i-th tag (no tag: not marked). *)
Definition mapM_marked {B C} (f : bool -> B -> M C)
  : list B -> list bool -> M (list C) :=
  fix go (bs : list B) (tags : list bool) : M (list C) :=
    match bs with
    | [] => ret []
    | b :: bs' =>
        c ← f (hd false tags) b; cs ← go bs' (tl tags); ret (c :: cs)
    end.

(** ** The inherited walker

    [TraverserVisitor] (mypy/traverser.py) is not part of the sources.  The
    methods the class reaches through [super()] or does not override take
    the walker they recurse into as an argument, as inheritance does. *)

(** Modelled from the spec: [TraverserVisitor.visit_block] is missing; a
    block that is not pruned has the walker "descend normally into each
    statement in order". *)
Definition TraverserVisitor_visit_block
    (accept : Statement → M Statement) (body : list Statement)
  : M (list Statement) :=
  mapM accept body.

(** Modelled from the spec: [TraverserVisitor.visit_func_def] is missing; on
    a function definition the walker must "descend into the body". *)
Definition TraverserVisitor_visit_func_def
    (visit_block : Block → M Block) (body : Block) : M Block :=
  visit_block body.

(** Modelled from the spec: [TraverserVisitor.visit_class_def] is missing; on
    a class definition the walker must "descend into the body". *)
Definition TraverserVisitor_visit_class_def
    (visit_block : Block → M Block) (defs : Block) : M Block :=
  visit_block defs.

(** Modelled from the spec: the inherited [visit_import], [visit_import_from]
    and [visit_import_all] are missing; import-like statements "have no
    further children of interest". *)
Definition TraverserVisitor_visit_import : M unit := ret tt.

(** Modelled from the spec: [TraverserVisitor.visit_assert_stmt] is missing;
    a statement kind the class does not list falls back "to full default
    recursive descent into every child": the condition, then the message. *)
Definition TraverserVisitor_visit_assert_stmt
    (expr : Expression) (msg : option Expression) : M unit :=
  accept_expr expr;; optM accept_expr msg;; ret tt.

(** Modelled from the spec: the inherited methods of the other statement
    kinds are missing; they are the "full default recursive descent into
    every child", expressions and statements alike, in order. *)
Definition TraverserVisitor_visit_children
    (accept : Statement → M Statement)
    (children : list (Expression + Statement))
  : M (list (Expression + Statement)) :=
  mapM (fun c : Expression + Statement =>
          match c with
          | inl x => accept_expr x;; ret (inl x)
          | inr s => s' ← accept s; ret (inr s')
          end) children.

(** ** The walker

    [accept s] is [s.accept(self)], dispatching to the [visit_*] method of
    the node's class.  [visit_block_marked dead b] is [visit_block] on [b]
    after the oracle marked it with [dead] (see [visit_block_marked_mark]);
    passing the mark along keeps the recursion structural. *)
Fixpoint accept (s : Statement) {struct s} : M Statement :=
  match s with
  (* visit_assignment_stmt, visit_expression_stmt, visit_return_stmt: pass *)
  | AssignmentStmt _ _ _ _ => ret s
  | ExpressionStmt _ _ _ => ret s
  | ReturnStmt _ _ _ => ret s
  (* not overridden *)
  | AssertStmt _ _ expr msg =>
      TraverserVisitor_visit_assert_stmt expr msg;;
      ret s
  (* visit_if_stmt *)
  | IfStmt l e expr body else_body =>
      opts ← gets options;
      let tags := infer_reachability_of_if_statement s opts in
      mapM accept_expr expr;;
      body' ← mapM_marked visit_block_marked body (fst tags);
      else_body' ← optM (visit_block_marked (snd tags)) else_body;
      ret (IfStmt l e expr body' else_body')
  (* visit_for_stmt *)
  | ForStmt l e index expr body else_body =>
      body' ← visit_block_marked false body;
      else_body' ← optM (visit_block_marked false) else_body;
      ret (ForStmt l e index expr body' else_body')
  (* visit_match_stmt *)
  | MatchStmt l e subject guards bodies =>
      opts ← gets options;
      let tags := infer_reachability_of_match_statement s opts in
      mapM (optM accept_expr) guards;;
      bodies' ← mapM_marked visit_block_marked bodies tags;
      ret (MatchStmt l e subject guards bodies')
  (* visit_import, visit_import_from, visit_import_all *)
  | Import l e ids _ =>
      g ← gets is_global_scope;
      TraverserVisitor_visit_import;;
      ret (Import l e ids g)
  | ImportFrom l e id relative names _ =>
      g ← gets is_global_scope;
      TraverserVisitor_visit_import;;
      ret (ImportFrom l e id relative names g)
  | ImportAll l e id relative _ =>
      g ← gets is_global_scope;
      TraverserVisitor_visit_import;;
      ret (ImportAll l e id relative g)
  (* visit_func_def *)
  | FuncDef l e name body =>
      old_global_scope ← gets is_global_scope;
      set_is_global_scope false;;
      body' ← TraverserVisitor_visit_func_def (visit_block_marked false) body;
      set_is_global_scope old_global_scope;;
      file_node ← gets cur_mod_node;
      g ← gets is_global_scope;
      (if g && is_stub file_node && String.eqb name "__getattr__"%string
          && is_package_init_file (path file_node)
       then set_is_partial_stub_package else ret tt);;
      ret (FuncDef l e name body')
  (* visit_class_def *)
  | ClassDef l e name defs =>
      old_global_scope ← gets is_global_scope;
      set_is_global_scope false;;
      defs' ← TraverserVisitor_visit_class_def (visit_block_marked false) defs;
      set_is_global_scope old_global_scope;;
      ret (ClassDef l e name defs')
  | BlockStmt b =>
      b' ← visit_block_marked false b;
      ret (BlockStmt b')
  (* not overridden *)
  | OtherStmt l e children =>
      children' ← TraverserVisitor_visit_children accept children;
      ret (OtherStmt l e children')
  end
(* visit_block *)
with visit_block_marked (dead : bool) (b : Block) {struct b} : M Block :=
  match b with
  | mkBlock l e body u =>
      if u || dead then
        match e with
        | Some e' => add_skipped_lines (line_range l e')
        | None => ret tt
        end;;
        ret (mkBlock l e body (u || dead))
      else
        body' ← TraverserVisitor_visit_block accept body;
        ret (mkBlock l e body' (u || dead))
  end.

Definition visit_block (b : Block) : M Block := visit_block_marked false b.

(** One child of a statement that has no method of its own in the class. *)
Definition accept_child (c : Expression + Statement) : M (Expression + Statement) :=
  match c with
  | inl x => accept_expr x;; ret (inl x)
  | inr s => s' ← accept s; ret (inr s')
  end.

(** [visit_file]'s loop over [file.defs].  [done] are the statements already
    visited and [rest] those still to come: at the head [defn] of [rest] the
    list [file.defs] is [done ++ defn :: tail] and [i] is [length done]. *)
Fixpoint visit_defs (opts : Options.t) (done rest : list Statement)
  : M (list Statement) :=
  match rest with
  | [] => ret done
  | defn :: tail =>
      defn' ← accept defn;
      let file_defs := done ++ defn' :: tail in
      let i := length done in
      if is_AssertStmt defn' && assert_will_always_fail defn' opts then
        (if bool_decide (i < length file_defs - 1) then
           let next_def := nth (i + 1) file_defs defn' in
           let last := List.last file_defs defn' in
           match end_line last with
           | Some last_end_line =>
               add_skipped_lines (line_range (line next_def) last_end_line)
           | None => ret tt
           end
         else ret tt);;
        (* del file.defs[i + 1 :]; break *)
        ret (take (i + 1) file_defs)
      else visit_defs opts (done ++ [defn']) tail
  end.

(** [visit_file].  [self] is the visitor as earlier calls left it; [file]
    and [self.cur_mod_node] are one object, so the result's [cur_mod_node]
    is the module after the pass. *)
Definition visit_file (self : Visitor) (file : MypyFile)
    (fnam mod_id : string) (opts : Options.t) : Visitor :=
  let self := mkVisitor (Options.platform opts) mod_id file opts true ∅ [] in
  let '(defs', self) := visit_defs opts [] (defs file) self in
  let file := cur_mod_node self in
  mkVisitor (platform self) (cur_mod_id self)
    (mkMypyFile defs' (path file) (is_stub file)
       (is_partial_stub_package file) (skipped_lines self))
    (options self) (is_global_scope self) (skipped_lines self)
    (accepted self).

(** The visitor as the first six assignments of [visit_file] set it. *)
Definition fresh_visitor (file : MypyFile) (mod_id : string)
    (opts : Options.t) : Visitor :=
  mkVisitor (Options.platform opts) mod_id file opts true ∅ [].

(** ** Induction over statements and blocks

    The principle Rocq derives says nothing about the statements inside the
    lists and options of a node; this one does. *)
Definition Forall_of {A} {P : A → Prop} (f : ∀ x, P x) : ∀ l, Forall P l :=
  fix go l :=
    match l with
    | [] => Forall_nil_2 P
    | x :: r => Forall_cons_2 P x r (f x) (go r)
    end.

Definition child_Prop (P : Statement → Prop) (c : Expression + Statement) : Prop :=
  match c with inl _ => True | inr s => P s end.

Section StatementInd.
Variables (P : Statement → Prop) (Q : Block → Prop).
Hypothesis HAssignment : ∀ l e lv rv, P (AssignmentStmt l e lv rv).
Hypothesis HExpression : ∀ l e x, P (ExpressionStmt l e x).
Hypothesis HReturn : ∀ l e x, P (ReturnStmt l e x).
Hypothesis HAssert : ∀ l e x msg, P (AssertStmt l e x msg).
Hypothesis HIf : ∀ l e xs body else_body,
  Forall Q body → from_option Q True else_body →
  P (IfStmt l e xs body else_body).
Hypothesis HFor : ∀ l e index x body else_body,
  Q body → from_option Q True else_body →
  P (ForStmt l e index x body else_body).
Hypothesis HMatch : ∀ l e subject guards bodies,
  Forall Q bodies → P (MatchStmt l e subject guards bodies).
Hypothesis HImport : ∀ l e ids t, P (Import l e ids t).
Hypothesis HImportFrom : ∀ l e id rel names t, P (ImportFrom l e id rel names t).
Hypothesis HImportAll : ∀ l e id rel t, P (ImportAll l e id rel t).
Hypothesis HFuncDef : ∀ l e name body, Q body → P (FuncDef l e name body).
Hypothesis HClassDef : ∀ l e name body, Q body → P (ClassDef l e name body).
Hypothesis HBlockStmt : ∀ b, Q b → P (BlockStmt b).
Hypothesis HOther : ∀ l e children,
  Forall (child_Prop P) children → P (OtherStmt l e children).
Hypothesis HBlock : ∀ l e body u, Forall P body → Q (mkBlock l e body u).

Fixpoint Statement_nested_ind (s : Statement) : P s :=
  match s with
  | AssignmentStmt l e lv rv => HAssignment l e lv rv
  | ExpressionStmt l e x => HExpression l e x
  | ReturnStmt l e x => HReturn l e x
  | AssertStmt l e x msg => HAssert l e x msg
  | IfStmt l e xs body else_body =>
      HIf l e xs body else_body (Forall_of Block_nested_ind body)
        (match else_body with Some b => Block_nested_ind b | None => I end)
  | ForStmt l e index x body else_body =>
      HFor l e index x body else_body (Block_nested_ind body)
        (match else_body with Some b => Block_nested_ind b | None => I end)
  | MatchStmt l e subject guards bodies =>
      HMatch l e subject guards bodies (Forall_of Block_nested_ind bodies)
  | Import l e ids t => HImport l e ids t
  | ImportFrom l e id rel names t => HImportFrom l e id rel names t
  | ImportAll l e id rel t => HImportAll l e id rel t
  | FuncDef l e name body => HFuncDef l e name body (Block_nested_ind body)
  | ClassDef l e name body => HClassDef l e name body (Block_nested_ind body)
  | BlockStmt b => HBlockStmt b (Block_nested_ind b)
  | OtherStmt l e children =>
      HOther l e children
        (Forall_of (P := child_Prop P)
           (λ c, match c with
                 | inl _ => I
                 | inr s' => Statement_nested_ind s'
                 end) children)
  end
with Block_nested_ind (b : Block) : Q b :=
  match b with
  | mkBlock l e body u => HBlock l e body u (Forall_of Statement_nested_ind body)
  end.
End StatementInd.

(** ** What the walker reaches

    [reached top s] lists, in visit order, the nodes whose [accept] a walk
    of [s] calls, read off the tree as the pass leaves it: nothing below a
    block tagged unreachable, no expression of an assignment, expression
    statement, return or loop header.  [top] tells whether the node is
    written outside every function and class body, given that [s] is. *)
Inductive Node : Type :=
  | NExpr (e : Expression)
  | NStmt (s : Statement)
  | NBlock (b : Block).

Definition reached_expr (top : bool) (e : Expression) : list (bool * Node) :=
  [(top, NExpr e)].

Fixpoint reached (top : bool) (s : Statement) {struct s} : list (bool * Node) :=
  (top, NStmt s) ::
  match s with
  | AssignmentStmt _ _ _ _ | ExpressionStmt _ _ _ | ReturnStmt _ _ _ => []
  | AssertStmt _ _ x msg =>
      reached_expr top x ++ from_option (reached_expr top) [] msg
  | IfStmt _ _ xs body else_body =>
      concat (map (reached_expr top) xs)
      ++ concat (map (reached_block top) body)
      ++ from_option (reached_block top) [] else_body
  | ForStmt _ _ _ _ body else_body =>
      reached_block top body ++ from_option (reached_block top) [] else_body
  | MatchStmt _ _ _ guards bodies =>
      concat (map (from_option (reached_expr top) []) guards)
      ++ concat (map (reached_block top) bodies)
  | Import _ _ _ _ | ImportFrom _ _ _ _ _ _ | ImportAll _ _ _ _ _ => []
  | FuncDef _ _ _ body => reached_block false body
  | ClassDef _ _ _ body => reached_block false body
  | BlockStmt b => reached_block top b
  | OtherStmt _ _ children =>
      concat (map (λ c, match c with
                        | inl x => reached_expr top x
                        | inr s' => reached top s'
                        end) children)
  end
with reached_block (top : bool) (b : Block) {struct b} : list (bool * Node) :=
  (top, NBlock b) ::
  match b with
  | mkBlock _ _ body u => if u then [] else concat (map (reached top) body)
  end.

Definition reached_child (top : bool) (c : Expression + Statement) :=
  match c with inl x => reached_expr top x | inr s => reached top s end.

(** A function definition that meets the two conditions of the stub-package
    check that belong to the definition: module scope and the hook's name. *)
Definition is_getattr_hook (n : bool * Node) : bool :=
  match n with
  | (top, NStmt (FuncDef _ _ name _)) => top && String.eqb name "__getattr__"%string
  | _ => false
  end.

(** The lines of a block reached with its unreachable tag set. *)
Definition pruned_span (n : bool * Node) : gset Z :=
  match n with
  | (_, NBlock (mkBlock l (Some e) _ true)) => line_range l e
  | _ => ∅
  end.

Definition node_expr (n : bool * Node) : list Expression :=
  match n with (_, NExpr e) => [e] | _ => [] end.

(** An import-like statement carries the tag of its place. *)
Definition tag_ok (n : bool * Node) : Prop :=
  match n with
  | (top, NStmt (Import _ _ _ t)) => t = top
  | (top, NStmt (ImportFrom _ _ _ _ _ t)) => t = top
  | (top, NStmt (ImportAll _ _ _ _ t)) => t = top
  | _ => True
  end.

Definition hooks (R : list (bool * Node)) : bool := existsb is_getattr_hook R.
Definition spans (R : list (bool * Node)) : gset Z := ⋃ (map pruned_span R).
Definition exprs (R : list (bool * Node)) : list Expression :=
  concat (map node_expr R).

(** The visitor after a walk that reached the nodes [R]. *)
Definition advance (self : Visitor) (R : list (bool * Node)) : Visitor :=
  let f := cur_mod_node self in
  mkVisitor (platform self) (cur_mod_id self)
    (mkMypyFile (defs f) (path f) (is_stub f)
       (is_partial_stub_package f
        || (is_stub f && is_package_init_file (path f) && hooks R))
       (file_skipped_lines f))
    (options self) (is_global_scope self)
    (skipped_lines self ∪ spans R) (accepted self ++ exprs R).

(** The oracle's marking of the arms of a conditional: the i-th block gets
    the i-th tag, a block without a tag is not marked. *)
Fixpoint mark_blocks (tags : list bool) (bs : list Block) : list Block :=
  match bs with
  | [] => []
  | b :: bs' => mark_block_unreachable (hd false tags) b :: mark_blocks (tl tags) bs'
  end.

(** A function or class definition: a statement that opens a nested scope. *)
Definition is_scope_def (s : Statement) : bool :=
  match s with FuncDef _ _ _ _ | ClassDef _ _ _ _ => true | _ => false end.

(** The top-level tag of an import-like statement. *)
Definition import_tag (s : Statement) : option bool :=
  match s with
  | Import _ _ _ t | ImportFrom _ _ _ _ _ t | ImportAll _ _ _ _ t => Some t
  | _ => None
  end.

(** ** The Truncation Rule, in the spec's words

    [failing]: the statement is an assert for which the failing-assertion
    predicate holds.  [kept_defs]: the top-level statements up to and
    including the first such assert (all of them when there is none).
    [removed_defs]: the statements after it.  [truncated_span]: the lines
    recorded for them, from the next statement's start line through the last
    one's end line, nothing when that end line is unavailable. *)
Definition failing (opts : Options.t) (s : Statement) : bool :=
  is_AssertStmt s && assert_will_always_fail s opts.

Fixpoint kept_defs (opts : Options.t) (l : list Statement) : list Statement :=
  match l with
  | [] => []
  | s :: r => if failing opts s then [s] else s :: kept_defs opts r
  end.

Fixpoint removed_defs (opts : Options.t) (l : list Statement) : list Statement :=
  match l with
  | [] => []
  | s :: r => if failing opts s then r else removed_defs opts r
  end.

Definition truncated_span (removed : list Statement) : gset Z :=
  match removed with
  | [] => ∅
  | next_def :: _ =>
      match end_line (List.last removed next_def) with
      | Some e => line_range (line next_def) e
      | None => ∅
      end
  end.

(** A node without the tags the pass writes: the import tags and the
    block tags are cleared, everything else is kept. *)
Fixpoint untagged (s : Statement) {struct s} : Statement :=
  match s with
  | IfStmt l e xs body else_body =>
      IfStmt l e xs (map untagged_block body)
        (option_map untagged_block else_body)
  | ForStmt l e index x body else_body =>
      ForStmt l e index x (untagged_block body)
        (option_map untagged_block else_body)
  | MatchStmt l e subject guards bodies =>
      MatchStmt l e subject guards (map untagged_block bodies)
  | Import l e ids _ => Import l e ids false
  | ImportFrom l e id rel names _ => ImportFrom l e id rel names false
  | ImportAll l e id rel _ => ImportAll l e id rel false
  | FuncDef l e name body => FuncDef l e name (untagged_block body)
  | ClassDef l e name body => ClassDef l e name (untagged_block body)
  | BlockStmt b => BlockStmt (untagged_block b)
  | OtherStmt l e children =>
      OtherStmt l e
        (map (λ c, match c with
                   | inl x => inl x
                   | inr s' => inr (untagged s')
                   end) children)
  | _ => s
  end
with untagged_block (b : Block) {struct b} : Block :=
  match b with
  | mkBlock l e body _ => mkBlock l e (map untagged body) false
  end.

Definition untagged_child (c : Expression + Statement) : Expression + Statement :=
  match c with inl x => inl x | inr s => inr (untagged s) end.

(** [m] leaves the visitor as a walk over the nodes [ρ top x] does, [x] being
    what [m] returns and [top] the scope flag it starts from, and every
    import-like statement among them carries the tag of its place. *)
Definition tracks {X} (m : M X) (ρ : bool → X → list (bool * Node)) : Prop :=
  ∀ self x self', m self = (x, self') →
    self' = advance self (ρ (is_global_scope self) x)
    ∧ Forall tag_ok (ρ (is_global_scope self) x).

(** An assignment, an expression statement or a return: the statements
    whose [visit_*] methods are [pass]. *)
Definition is_plain_stmt (s : Statement) : bool :=
  match s with
  | AssignmentStmt _ _ _ _ | ExpressionStmt _ _ _ | ReturnStmt _ _ _ => true
  | _ => false
  end.

(** No block of the statement carries the unreachable tag. *)
Fixpoint all_reachable (s : Statement) {struct s} : bool :=
  match s with
  | IfStmt _ _ _ body else_body =>
      forallb all_reachable_block body
      && from_option all_reachable_block true else_body
  | ForStmt _ _ _ _ body else_body =>
      all_reachable_block body && from_option all_reachable_block true else_body
  | MatchStmt _ _ _ _ bodies => forallb all_reachable_block bodies
  | FuncDef _ _ _ body => all_reachable_block body
  | ClassDef _ _ _ body => all_reachable_block body
  | BlockStmt b => all_reachable_block b
  | OtherStmt _ _ children =>
      forallb (λ c, match c with
                    | inl _ => true
                    | inr s' => all_reachable s'
                    end) children
  | _ => true
  end
with all_reachable_block (b : Block) {struct b} : bool :=
  match b with
  | mkBlock _ _ body u => negb u && forallb all_reachable body
  end.

(** What a visit reads of the visitor to decide the tags it writes: the
    options and the scope flag.  [determined m]: from visitors that agree on
    these, [m] returns the same value and leaves visitors that agree. *)
Definition agree (self1 self2 : Visitor) : Prop :=
  options self1 = options self2
  ∧ is_global_scope self1 = is_global_scope self2.

Definition determined {X} (m : M X) : Prop :=
  ∀ self1 self2, agree self1 self2 →
    (m self1).1 = (m self2).1 ∧ agree (m self1).2 (m self2).2.

End Walker.

Arguments Statement : clear implicits.
Arguments Block : clear implicits.
Arguments Node : clear implicits.
Arguments MypyFile : clear implicits.
Arguments Visitor : clear implicits.
Arguments M : clear implicits.

End PreAnalysis.

Export PreAnalysis.


(** ** An oracle to run the pass on

    The general results below hold for every oracle.  The scenarios of the
    specification need one that decides platform checks. *)
Module Scenario.

(** Modelled from the spec: mypy.nodes expressions are missing.  These are
    the guards the oracle decides ("platform comparisons, boolean
    literals") and one it cannot decide. *)
Inductive Guard : Type :=
  | PlatformEq (name : string)
  | BoolLit (b : bool)
  | NameExpr (id : string).

(** Modelled from the spec: the expression evaluator of mypy.reachability is
    missing.  It decides "whether a guard is statically true, false, or
    undetermined given configuration"; [None] is undetermined. *)
Definition infer_condition_value (g : Guard) (opts : Options.t) : option bool :=
  match g with
  | PlatformEq name => Some (String.eqb (Options.platform opts) name)
  | BoolLit b => Some b
  | NameExpr _ => None
  end.

Definition always_false (g : Guard) (opts : Options.t) : bool :=
  match infer_condition_value g opts with Some false => true | _ => false end.

(** Modelled from the spec: the arms of a conditional that the missing
    [infer_reachability_of_if_statement] marks: an arm whose guard is
    statically false is dead; after an arm whose guard is statically true
    the later arms and the else block are dead; an undetermined guard marks
    nothing. *)
Fixpoint if_tags (guards : list Guard) (opts : Options.t) : list bool * bool :=
  match guards with
  | [] => ([], false)
  | g :: rest =>
      match infer_condition_value g opts with
      | Some false => let '(tags, e) := if_tags rest opts in (true :: tags, e)
      | Some true => (false :: map (λ _, true) rest, true)
      | None => let '(tags, e) := if_tags rest opts in (false :: tags, e)
      end
  end.

Definition infer_reachability_of_if_statement
    (s : Statement Guard) (opts : Options.t) : list bool * bool :=
  match s with
  | IfStmt _ _ guards _ _ => if_tags guards opts
  | _ => ([], false)
  end.

(** Modelled from the spec: the missing
    [infer_reachability_of_match_statement]; a case whose guard is
    statically false is dead. *)
Definition infer_reachability_of_match_statement
    (s : Statement Guard) (opts : Options.t) : list bool :=
  match s with
  | MatchStmt _ _ _ guards _ =>
      map (λ g, from_option (λ x, always_false x opts) false g) guards
  | _ => []
  end.

(** Modelled from the spec: the missing [assert_will_always_fail]; an assert
    fails always when its condition is statically false. *)
Definition assert_will_always_fail
    (s : Statement Guard) (opts : Options.t) : bool :=
  match s with
  | AssertStmt _ _ cond _ => always_false cond opts
  | _ => false
  end.

(** The path separator, [/]. *)
Definition slash : Ascii.ascii := Ascii.ascii_of_nat 47.

Fixpoint basename_from (candidate p : string) : string :=
  match p with
  | EmptyString => candidate
  | String c rest =>
      if Ascii.eqb c slash then basename_from rest rest
      else basename_from candidate rest
  end.

(** Modelled from the spec: the missing [MypyFile.is_package_init_file];
    a package initializer is a file named [__init__.] something. *)
Definition is_package_init_file (path : string) : bool :=
  String.prefix "__init__." (basename_from path path).

(** The walker with this oracle. *)
Abbreviation accept :=
  (PreAnalysis.accept infer_reachability_of_if_statement
     infer_reachability_of_match_statement is_package_init_file).
Abbreviation visit_block :=
  (PreAnalysis.visit_block infer_reachability_of_if_statement
     infer_reachability_of_match_statement is_package_init_file).
Abbreviation visit_file :=
  (PreAnalysis.visit_file infer_reachability_of_if_statement
     infer_reachability_of_match_statement assert_will_always_fail
     is_package_init_file).
Abbreviation failing := (PreAnalysis.failing assert_will_always_fail).
Abbreviation kept_defs := (PreAnalysis.kept_defs assert_will_always_fail).
Abbreviation removed_defs := (PreAnalysis.removed_defs assert_will_always_fail).

Local Open Scope Z_scope.

Definition linux : Options.t := Options.mk "linux" (3, 12).

(** A visitor as some earlier call may have left it. *)
Definition idle (file : MypyFile Guard) : Visitor Guard :=
  mkVisitor "" "" file linux false ∅ [].

Definition import_ (l : Z) (name : string) : Statement Guard :=
  Import l (Some l) [(name, None)] false.

(** [import a; assert sys.platform == "bogus"; import b; import c] *)
Definition truncated_module : MypyFile Guard :=
  mkMypyFile
    [import_ 1 "a"; AssertStmt 2 (Some 2) (PlatformEq "bogus") None;
     import_ 3 "b"; import_ 4 "c"]
    "m.py" false false ∅.

(** [import a; assert sys.platform == "bogus"] *)
Definition assert_last_module : MypyFile Guard :=
  mkMypyFile
    [import_ 1 "a"; AssertStmt 2 (Some 2) (PlatformEq "bogus") None]
    "m.py" false false ∅.

(** [assert sys.platform == "bogus"; x = y; import b], the assignment
    without an end line. *)
Definition mixed_end_lines_module : MypyFile Guard :=
  mkMypyFile
    [AssertStmt 1 (Some 1) (PlatformEq "bogus") None;
     AssignmentStmt 2 None [NameExpr "x"] (NameExpr "y");
     import_ 3 "b"]
    "m.py" false false ∅.

(** [if sys.platform == "win32": import xyz], lines 1 to 2. *)
Definition platform_module : MypyFile Guard :=
  mkMypyFile
    [IfStmt 1 (Some 2) [PlatformEq "win32"]
       [mkBlock 2 (Some 2) [import_ 2 "xyz"] false] None]
    "m.py" false false ∅.

(** A dead block on lines 5 to 6, and a live one. *)
Definition dead_block : Block Guard :=
  mkBlock 5 (Some 6) [import_ 6 "x"] true.
Definition live_block : Block Guard :=
  mkBlock 5 (Some 6) [import_ 6 "x"] false.

(** The stub [pkg/__init__.pyi] with [def __getattr__(name): ...]. *)
Definition stub_package : MypyFile Guard :=
  mkMypyFile
    [FuncDef 1 (Some 2) "__getattr__"
       (mkBlock 2 (Some 2) [ExpressionStmt 2 (Some 2) (NameExpr "...")] false)]
    "pkg/__init__.pyi" true false ∅.

(** [def f(): (def g(): import c); import b], the imports tagged top-level
    before the pass. *)
Definition nested_defs : Statement Guard :=
  FuncDef 1 (Some 4) "f"
    (mkBlock 2 (Some 4)
       [FuncDef 2 (Some 3) "g"
          (mkBlock 3 (Some 3) [Import 3 (Some 3) [("c", None)] true] false);
        Import 4 (Some 4) [("b", None)] true]
       false).

(** [def f(): assert sys.platform == "bogus"] then [import b]: the failing
    assert is nested. *)
Definition nested_assert_module : MypyFile Guard :=
  mkMypyFile
    [FuncDef 1 (Some 2) "f"
       (mkBlock 2 (Some 2) [AssertStmt 2 (Some 2) (PlatformEq "bogus") None] false);
     import_ 3 "b"]
    "m.py" false false ∅.

(** The class [class C: def __getattr__(self, name): ...]. *)
Definition class_with_getattr : Statement Guard :=
  ClassDef 1 (Some 3) "C"
    (mkBlock 2 (Some 3)
       [FuncDef 2 (Some 3) "__getattr__"
          (mkBlock 3 (Some 3) [ExpressionStmt 3 (Some 3) (NameExpr "...")] false)]
       false).

(** [x = y; f; return], with a skipped-line set left by an earlier run. *)
Definition plain_module : MypyFile Guard :=
  mkMypyFile
    [AssignmentStmt 1 (Some 1) [NameExpr "x"] (NameExpr "y");
     ExpressionStmt 2 (Some 2) (NameExpr "f");
     ReturnStmt 3 (Some 3) None]
    "m.py" false false (line_range 7 9).

(** [for i in xs: import a], no else block. *)
Definition for_loop : Statement Guard :=
  ForStmt 1 (Some 2) (NameExpr "i") (NameExpr "xs")
    (mkBlock 2 (Some 2) [import_ 2 "a"] false) None.

(** [if sys.platform == "win32": import xyz] *)
Definition platform_check : Statement Guard :=
  IfStmt 1 (Some 2) [PlatformEq "win32"]
    [mkBlock 2 (Some 2) [import_ 2 "xyz"] false] None.

(** Oracles that decide nothing. *)
Definition undecided_if (s : Statement Guard) (opts : Options.t)
  : list bool * bool := ([], false).
Definition undecided_match (s : Statement Guard) (opts : Options.t)
  : list bool := [].

(** [if sys.platform == "linux": import a] then [else: import b], lines 1
    to 4. *)
Definition platform_else : Statement Guard :=
  IfStmt 1 (Some 4) [PlatformEq "linux"]
    [mkBlock 2 (Some 2) [import_ 2 "a"] false]
    (Some (mkBlock 4 (Some 4) [import_ 4 "b"] false)).

End Scenario.


(** ** Proofs

    The results hold for every kind of expression, every oracle and every
    package test: these are variables again, and inside the section the
    names of the walker stand for the walker over them. *)
Section Properties.
Context {Expression : Type}.
Variable infer_reachability_of_if_statement :
  Statement Expression → Options.t → list bool * bool.
Variable infer_reachability_of_match_statement :
  Statement Expression → Options.t → list bool.
Variable assert_will_always_fail : Statement Expression → Options.t → bool.
Variable is_package_init_file : string → bool.

Local Abbreviation accept :=
  (accept infer_reachability_of_if_statement
     infer_reachability_of_match_statement is_package_init_file).
Local Abbreviation visit_block_marked :=
  (visit_block_marked infer_reachability_of_if_statement
     infer_reachability_of_match_statement is_package_init_file).
Local Abbreviation visit_block :=
  (visit_block infer_reachability_of_if_statement
     infer_reachability_of_match_statement is_package_init_file).
Local Abbreviation visit_defs :=
  (visit_defs infer_reachability_of_if_statement
     infer_reachability_of_match_statement assert_will_always_fail
     is_package_init_file).
Local Abbreviation visit_file :=
  (visit_file infer_reachability_of_if_statement
     infer_reachability_of_match_statement assert_will_always_fail
     is_package_init_file).
Local Abbreviation advance := (advance is_package_init_file).
Local Abbreviation accept_child :=
  (accept_child infer_reachability_of_if_statement
     infer_reachability_of_match_statement is_package_init_file).
Local Abbreviation tracks := (tracks is_package_init_file).
Local Abbreviation determined := (@determined Expression).
Local Abbreviation failing := (failing assert_will_always_fail).
Local Abbreviation kept_defs := (kept_defs assert_will_always_fail).
Local Abbreviation removed_defs := (removed_defs assert_will_always_fail).
Local Abbreviation Stmt := (Statement Expression).
Local Abbreviation Vis := (Visitor Expression).

Lemma elem_of_line_range lo hi x : x ∈ line_range lo hi ↔ (lo ≤ x ≤ hi)%Z.
Proof. unfold line_range. rewrite elem_of_list_to_set, elem_of_seqZ. lia. Qed.

Lemma Statement_Block_ind (P : Stmt → Prop) (Q : Block Expression → Prop) :
  (∀ l e lv rv, P (AssignmentStmt l e lv rv)) →
  (∀ l e x, P (ExpressionStmt l e x)) →
  (∀ l e x, P (ReturnStmt l e x)) →
  (∀ l e x msg, P (AssertStmt l e x msg)) →
  (∀ l e xs body else_body,
     Forall Q body → from_option Q True else_body →
     P (IfStmt l e xs body else_body)) →
  (∀ l e index x body else_body,
     Q body → from_option Q True else_body →
     P (ForStmt l e index x body else_body)) →
  (∀ l e subject guards bodies,
     Forall Q bodies → P (MatchStmt l e subject guards bodies)) →
  (∀ l e ids t, P (Import l e ids t)) →
  (∀ l e id rel names t, P (ImportFrom l e id rel names t)) →
  (∀ l e id rel t, P (ImportAll l e id rel t)) →
  (∀ l e name body, Q body → P (FuncDef l e name body)) →
  (∀ l e name body, Q body → P (ClassDef l e name body)) →
  (∀ b, Q b → P (BlockStmt b)) →
  (∀ l e children,
     Forall (child_Prop P) children → P (OtherStmt l e children)) →
  (∀ l e body u, Forall P body → Q (mkBlock l e body u)) →
  (∀ s, P s) ∧ (∀ b, Q b).
Proof.
  intros. split.
  - apply Statement_nested_ind with (Q := Q); assumption.
  - apply Block_nested_ind with (P := P); assumption.
Qed.


(** *** Equations of the walker, one per class of node *)

Lemma accept_AssignmentStmt l e lv rv :
  accept (AssignmentStmt l e lv rv) = ret (AssignmentStmt l e lv rv).
Proof. reflexivity. Qed.

Lemma accept_ExpressionStmt l e x :
  accept (ExpressionStmt l e x) = ret (ExpressionStmt l e x).
Proof. reflexivity. Qed.

Lemma accept_ReturnStmt l e x :
  accept (ReturnStmt l e x) = ret (ReturnStmt l e x).
Proof. reflexivity. Qed.

Lemma accept_AssertStmt l e x msg :
  accept (AssertStmt l e x msg)
  = (TraverserVisitor_visit_assert_stmt x msg;; ret (AssertStmt l e x msg)).
Proof. reflexivity. Qed.

Lemma accept_IfStmt l e xs body else_body :
  accept (IfStmt l e xs body else_body)
  = (opts ← gets options;
     let tags :=
       infer_reachability_of_if_statement (IfStmt l e xs body else_body) opts in
     mapM accept_expr xs;;
     body' ← mapM_marked visit_block_marked body tags.1;
     else_body' ← optM (visit_block_marked tags.2) else_body;
     ret (IfStmt l e xs body' else_body')).
Proof. reflexivity. Qed.

Lemma accept_ForStmt l e index x body else_body :
  accept (ForStmt l e index x body else_body)
  = (body' ← visit_block_marked false body;
     else_body' ← optM (visit_block_marked false) else_body;
     ret (ForStmt l e index x body' else_body')).
Proof. reflexivity. Qed.

Lemma accept_MatchStmt l e subject guards bodies :
  accept (MatchStmt l e subject guards bodies)
  = (opts ← gets options;
     let tags :=
       infer_reachability_of_match_statement
         (MatchStmt l e subject guards bodies) opts in
     mapM (optM accept_expr) guards;;
     bodies' ← mapM_marked visit_block_marked bodies tags;
     ret (MatchStmt l e subject guards bodies')).
Proof. reflexivity. Qed.

Lemma accept_Import l e ids t :
  accept (Import l e ids t)
  = (g ← gets is_global_scope; ret (Import l e ids g)).
Proof. reflexivity. Qed.

Lemma accept_ImportFrom l e id rel names t :
  accept (ImportFrom l e id rel names t)
  = (g ← gets is_global_scope; ret (ImportFrom l e id rel names g)).
Proof. reflexivity. Qed.

Lemma accept_ImportAll l e id rel t :
  accept (ImportAll l e id rel t)
  = (g ← gets is_global_scope; ret (ImportAll l e id rel g)).
Proof. reflexivity. Qed.

Lemma accept_FuncDef l e name body :
  accept (FuncDef l e name body)
  = (old_global_scope ← gets is_global_scope;
     set_is_global_scope false;;
     body' ← visit_block_marked false body;
     set_is_global_scope old_global_scope;;
     file_node ← gets cur_mod_node;
     g ← gets is_global_scope;
     (if g && is_stub file_node && String.eqb name "__getattr__"%string
         && is_package_init_file (path file_node)
      then set_is_partial_stub_package else ret tt);;
     ret (FuncDef l e name body')).
Proof. reflexivity. Qed.

Lemma accept_ClassDef l e name body :
  accept (ClassDef l e name body)
  = (old_global_scope ← gets is_global_scope;
     set_is_global_scope false;;
     body' ← visit_block_marked false body;
     set_is_global_scope old_global_scope;;
     ret (ClassDef l e name body')).
Proof. reflexivity. Qed.

Lemma accept_BlockStmt b :
  accept (BlockStmt b) = (b' ← visit_block_marked false b; ret (BlockStmt b')).
Proof. reflexivity. Qed.

Lemma accept_OtherStmt l e children :
  accept (OtherStmt l e children)
  = (children' ← mapM accept_child children; ret (OtherStmt l e children')).
Proof. reflexivity. Qed.

Lemma visit_block_marked_eq dead l e body u :
  visit_block_marked dead (mkBlock l e body u)
  = if u || dead then
      match e with
      | Some e' => add_skipped_lines (line_range l e')
      | None => ret tt
      end;;
      ret (mkBlock l e body (u || dead))
    else
      body' ← mapM accept body;
      ret (mkBlock l e body' (u || dead)).
Proof. reflexivity. Qed.

(** *** Running a method body *)

Lemma bind_inv {A B} (m : M Expression A) (k : A → M Expression B) self b self'' :
  (m ≫= k) self = (b, self'') →
  ∃ a self', m self = (a, self') ∧ k a self' = (b, self'').
Proof. unfold mbind, M_bind. destruct (m self) as [a self']. eauto. Qed.

Lemma bind_run {A B} (m : M Expression A) (k : A → M Expression B) self :
  (m ≫= k) self = k (m self).1 (m self).2.
Proof. unfold mbind, M_bind. by destruct (m self). Qed.

Lemma ret_run {A} (a : A) (self : Vis) : ret a self = (a, self).
Proof. done. Qed.

(** *** The visitor after a walk *)

Lemma hooks_app (R1 R2 : list (bool * Node Expression)) :
  hooks (R1 ++ R2) = hooks R1 || hooks R2.
Proof. apply existsb_app. Qed.

Lemma spans_app (R1 R2 : list (bool * Node Expression)) :
  spans (R1 ++ R2) = spans R1 ∪ spans R2.
Proof. unfold spans. by rewrite map_app, union_list_app_L. Qed.

Lemma exprs_app (R1 R2 : list (bool * Node Expression)) :
  exprs (R1 ++ R2) = exprs R1 ++ exprs R2.
Proof. unfold exprs. by rewrite map_app, concat_app. Qed.

Lemma hooks_cons n (R : list (bool * Node Expression)) :
  hooks (n :: R) = is_getattr_hook n || hooks R.
Proof. done. Qed.

Lemma spans_cons n (R : list (bool * Node Expression)) :
  spans (n :: R) = pruned_span n ∪ spans R.
Proof. done. Qed.

Lemma exprs_cons n (R : list (bool * Node Expression)) :
  exprs (n :: R) = node_expr n ++ exprs R.
Proof. done. Qed.

Lemma advance_nil (self : Vis) : advance self [] = self.
Proof.
  destruct self as [? ? [] ? ? ? ?]. unfold PreAnalysis.advance; cbn.
  rewrite !andb_false_r, orb_false_r, app_nil_r.
  f_equal. unfold spans; cbn. by rewrite (right_id_L ∅ (∪)).
Qed.

Lemma advance_app (self : Vis) R1 R2 :
  advance (advance self R1) R2 = advance self (R1 ++ R2).
Proof.
  destruct self as [p id [d pa st fl fs] o g sk acc].
  unfold PreAnalysis.advance; cbn.
  rewrite hooks_app, spans_app, exprs_app, app_assoc. f_equal.
  - f_equal. destruct st, (is_package_init_file pa), fl, (hooks R1), (hooks R2);
      done.
  - by rewrite (assoc_L (∪)).
Qed.


Lemma is_global_scope_advance (self : Vis) R :
  is_global_scope (advance self R) = is_global_scope self.
Proof. done. Qed.

Lemma tracks_mapM {A B} (f : A → M Expression B) ρ (l : list A) :
  Forall (λ x, tracks (f x) ρ) l →
  tracks (mapM f l) (λ top ys, concat (map (ρ top) ys)).
Proof.
  induction 1 as [|x l Hx _ IH]; intros self ys self' Hrun.
  - inversion Hrun; subst. by rewrite advance_nil.
  - cbn in Hrun. apply bind_inv in Hrun as (y & self1 & Hy & Hrun).
    apply bind_inv in Hrun as (ys' & self2 & Hys & Hrun).
    inversion Hrun; subst; clear Hrun.
    apply Hx in Hy as [-> Hy]. apply IH in Hys as [-> Hys].
    rewrite is_global_scope_advance in *. cbn.
    rewrite advance_app. split; [done|]. by apply Forall_app.
Qed.

Lemma tracks_optM {A B} (f : A → M Expression B) ρ (o : option A) :
  from_option (λ x, tracks (f x) ρ) True o →
  tracks (optM f o) (λ top o', from_option (ρ top) [] o').
Proof.
  destruct o as [x|]; cbn; intros Hx self o' self' Hrun.
  - apply bind_inv in Hrun as (y & self1 & Hy & Hrun).
    inversion Hrun; subst. by apply Hx in Hy.
  - inversion Hrun; subst. by rewrite advance_nil.
Qed.

Lemma tracks_mapM_marked {B C} (f : bool → B → M Expression C) ρ (bs : list B) :
  Forall (λ b, ∀ dead, tracks (f dead b) ρ) bs →
  ∀ tags, tracks (mapM_marked f bs tags) (λ top cs, concat (map (ρ top) cs)).
Proof.
  induction 1 as [|b bs Hb _ IH]; intros tags self cs self' Hrun.
  - inversion Hrun; subst. by rewrite advance_nil.
  - cbn in Hrun. apply bind_inv in Hrun as (c & self1 & Hc & Hrun).
    apply bind_inv in Hrun as (cs' & self2 & Hcs & Hrun).
    inversion Hrun; subst; clear Hrun.
    apply Hb in Hc as [-> Hc]. apply IH in Hcs as [-> Hcs].
    rewrite is_global_scope_advance in *. cbn.
    rewrite advance_app. split; [done|]. by apply Forall_app.
Qed.

Lemma tracks_optM_marked {B C} (f : bool → B → M Expression C) ρ (o : option B) :
  from_option (λ b, ∀ dead, tracks (f dead b) ρ) True o →
  ∀ dead, tracks (optM (f dead) o) (λ top o', from_option (ρ top) [] o').
Proof. intros Ho dead. apply tracks_optM. destruct o; cbn in *; auto. Qed.

Lemma accept_expr_run (e : Expression) (self : Vis) :
  accept_expr e self = (tt, advance self (reached_expr (is_global_scope self) e)).
Proof.
  destruct self as [? ? [] ? ? ? ?]. unfold accept_expr, PreAnalysis.advance; cbn.
  rewrite !andb_false_r, orb_false_r. do 2 f_equal.
  unfold spans; cbn. by rewrite !(right_id_L ∅ (∪)).
Qed.

Lemma mapM_accept_expr_run (xs : list Expression) (self : Vis) :
  (mapM accept_expr xs self).2
  = advance self (concat (map (reached_expr (is_global_scope self)) xs)).
Proof.
  revert self. induction xs as [|x xs IH]; intros self; cbn.
  - by rewrite advance_nil.
  - rewrite bind_run, accept_expr_run. cbn [fst snd].
    rewrite bind_run. cbn [fst snd]. rewrite IH, advance_app. done.
Qed.


Lemma tracks_accept_expr (e : Expression) :
  tracks (accept_expr e) (λ top _, reached_expr top e).
Proof.
  intros self [] self' H. rewrite accept_expr_run in H. inversion H; subst.
  split; [done|]. by repeat constructor.
Qed.

Lemma tracks_optM_in {A B} (f : A → M Expression B) ρ (o : option A) :
  (∀ x, tracks (f x) (λ top _, ρ top x)) →
  tracks (optM f o) (λ top _, from_option (ρ top) [] o).
Proof.
  intros Hf. destruct o as [x|]; cbn; intros self o' self' Hrun.
  - apply bind_inv in Hrun as (y & self1 & Hy & Hrun).
    inversion Hrun; subst. by apply Hf in Hy.
  - inversion Hrun; subst. by rewrite advance_nil.
Qed.

Lemma tracks_mapM_in {A B} (f : A → M Expression B) ρ (l : list A) :
  (∀ x, tracks (f x) (λ top _, ρ top x)) →
  tracks (mapM f l) (λ top _, concat (map (ρ top) l)).
Proof.
  intros Hf. induction l as [|x l IH]; intros self ys self' Hrun.
  - inversion Hrun; subst. by rewrite advance_nil.
  - cbn in Hrun. apply bind_inv in Hrun as (y & self1 & Hy & Hrun).
    apply bind_inv in Hrun as (ys' & self2 & Hys & Hrun).
    inversion Hrun; subst; clear Hrun.
    apply Hf in Hy as [-> Hy]. apply IH in Hys as [-> Hys].
    rewrite is_global_scope_advance in *. cbn.
    rewrite advance_app. split; [done|]. by apply Forall_app.
Qed.

Lemma advance_skip (self : Vis) n R :
  is_getattr_hook n = false → pruned_span n = ∅ → node_expr n = [] →
  advance self (n :: R) = advance self R.
Proof.
  intros Hh Hs He. unfold PreAnalysis.advance.
  by rewrite hooks_cons, spans_cons, exprs_cons, Hh, Hs, He, (left_id_L ∅ (∪)).
Qed.

Ltac run_all H :=
  repeat (apply bind_inv in H as (? & ? & ? & H));
  unfold ret, mret, M_ret in H.

Ltac by_tracks Htr H := apply Htr in H as [-> ?].

Ltac finish_tracks :=
  rewrite ?is_global_scope_advance in *;
  cbn [reached reached_block];
  rewrite ?advance_skip by done;
  rewrite ?advance_app, ?advance_nil, ?app_nil_r;
  split; [done|];
  repeat first [ apply Forall_cons; split; [done|] | apply Forall_app; split
               | apply Forall_nil_2 | assumption ].

Lemma accept_tracks :
  (∀ s, tracks (accept s) reached)
  ∧ (∀ b dead, tracks (visit_block_marked dead b) reached_block).
Proof.
  apply Statement_Block_ind.
  - intros l e lv rv self s' self' H. inversion H; subst. finish_tracks.
  - intros l e x self s' self' H. inversion H; subst. finish_tracks.
  - intros l e x self s' self' H. inversion H; subst. finish_tracks.
  - intros l e x msg self s' self' H. rewrite accept_AssertStmt in H.
    unfold TraverserVisitor_visit_assert_stmt in H. run_all H. run_all H0.
    by_tracks (tracks_accept_expr x) H1.
    by_tracks (tracks_optM_in accept_expr reached_expr msg tracks_accept_expr) H2.
    inversion H0; subst. inversion H; subst. finish_tracks.
  - intros l e xs body else_body Hbody Helse self s' self' H.
    rewrite accept_IfStmt in H. run_all H.
    inversion H0; subst; clear H0.
    by_tracks (tracks_mapM_in accept_expr reached_expr xs tracks_accept_expr) H1.
    by_tracks (tracks_mapM_marked _ _ _ Hbody) H2.
    by_tracks (tracks_optM_marked _ _ _ Helse) H3.
    inversion H; subst. finish_tracks.
  - intros l e index x body else_body Hbody Helse self s' self' H.
    rewrite accept_ForStmt in H. run_all H.
    by_tracks (Hbody false) H0.
    by_tracks (tracks_optM_marked _ _ _ Helse) H1.
    inversion H; subst. finish_tracks.
  - intros l e subject guards bodies Hbodies self s' self' H.
    rewrite accept_MatchStmt in H. run_all H.
    inversion H0; subst; clear H0.
    by_tracks (tracks_mapM_in _ _ guards
                 (λ o, tracks_optM_in accept_expr reached_expr o tracks_accept_expr)) H1.
    by_tracks (tracks_mapM_marked _ _ _ Hbodies) H2.
    inversion H; subst. finish_tracks.
  - intros l e ids t self s' self' H. inversion H; subst. finish_tracks.
  - intros l e id rel names t self s' self' H. inversion H; subst. finish_tracks.
  - intros l e id rel t self s' self' H. inversion H; subst. finish_tracks.
  - intros l e name body Hbody self s' self' H.
    rewrite accept_FuncDef in H. run_all H.
    inversion H0; subst; clear H0. inversion H1; subst; clear H1.
    by_tracks (Hbody false) H2.
    inversion H3; subst; clear H3. inversion H4; subst; clear H4.
    inversion H5; subst; clear H5.
    inversion H; subst; clear H.
    destruct x0 as [p id [d pa st fl fs] o g sk acc]; cbn in *.
    split; [|by apply Forall_cons].
    unfold PreAnalysis.advance. rewrite hooks_cons, spans_cons, exprs_cons.
    cbn [platform cur_mod_id cur_mod_node options is_global_scope
         skipped_lines accepted defs path is_stub is_partial_stub_package
         file_skipped_lines is_getattr_hook pruned_span node_expr app].
    rewrite (left_id_L ∅ (∪)).
    destruct g, st, (String.eqb name "__getattr__"), (is_package_init_file pa);
      cbn in H6; inversion H6; subst; cbn;
      rewrite ?orb_true_r, ?orb_false_r, ?andb_false_r; done.
  - intros l e name body Hbody self s' self' H.
    rewrite accept_ClassDef in H. run_all H.
    inversion H0; subst; clear H0. inversion H1; subst; clear H1.
    by_tracks (Hbody false) H2.
    inversion H3; subst; clear H3. inversion H; subst; clear H.
    cbn in *. split.
    + rewrite advance_skip by done. done.
    + apply Forall_cons; split; [done|]. done.
  - intros b Hb self s' self' H.
    rewrite accept_BlockStmt in H. run_all H.
    by_tracks (Hb false) H0. inversion H; subst. finish_tracks.
  - intros l e children Hch self s' self' H.
    rewrite accept_OtherStmt in H. run_all H.
    assert (Forall (λ c, tracks (accept_child c) reached_child) children) as Hch'.
    { eapply Forall_impl; [exact Hch|]. intros [ex|st] Hc; cbn in *.
      - intros self0 c' self0' Hrun. run_all Hrun.
        by_tracks (tracks_accept_expr ex) H1. inversion Hrun; subst.
        cbn. split; [done|]. by repeat constructor.
      - intros self0 c' self0' Hrun. run_all Hrun.
        by_tracks Hc H1. inversion Hrun; subst. done. }
    by_tracks (tracks_mapM _ _ _ Hch') H0. inversion H; subst. finish_tracks.
  - intros l e body u Hbody dead self b' self' H.
    rewrite visit_block_marked_eq in H. destruct (u || dead) eqn:Hu.
    + run_all H. inversion H; subst; clear H. cbn [reached_block].
      split; [|by repeat constructor].
      destruct self as [p id [d pa st fl fs] o g sk acc].
      unfold PreAnalysis.advance. rewrite hooks_cons, spans_cons, exprs_cons.
      cbn [platform cur_mod_id cur_mod_node options is_global_scope
           skipped_lines accepted defs path is_stub is_partial_stub_package
           file_skipped_lines is_getattr_hook pruned_span node_expr app hooks
           spans exprs existsb map concat union_list foldr].
      rewrite !andb_false_r, orb_false_r, app_nil_r, !(right_id_L ∅ (∪)).
      destruct e; inversion H0; subst; cbn; by rewrite ?(right_id_L ∅ (∪)).
    + run_all H. by_tracks (tracks_mapM _ _ _ Hbody) H0.
      inversion H; subst. cbn [reached_block].
      rewrite advance_skip by (by destruct e). split; [done|].
      by apply Forall_cons.
Qed.


(** *** The pass writes tags and nothing else *)

Lemma mapM_Forall2 {A B} (f : A → M Expression B) (R : A → B → Prop) l :
  Forall (λ x, ∀ self y self', f x self = (y, self') → R x y) l →
  ∀ self ys self', mapM f l self = (ys, self') → Forall2 R l ys.
Proof.
  induction 1 as [|x l Hx _ IH]; intros self ys self' Hrun.
  - inversion Hrun; subst. constructor.
  - cbn in Hrun. run_all Hrun. inversion Hrun; subst. constructor; eauto.
Qed.

Lemma mapM_marked_Forall2 {B C} (f : bool → B → M Expression C)
    (R : B → C → Prop) bs :
  Forall (λ b, ∀ dead self c self', f dead b self = (c, self') → R b c) bs →
  ∀ tags self cs self',
    mapM_marked f bs tags self = (cs, self') → Forall2 R bs cs.
Proof.
  induction 1 as [|b bs Hb _ IH]; intros tags self cs self' Hrun.
  - inversion Hrun; subst. constructor.
  - cbn in Hrun. run_all Hrun. inversion Hrun; subst. constructor; eauto.
Qed.

Lemma optM_Forall2 {A B} (f : A → M Expression B) (R : A → B → Prop) o :
  from_option (λ x, ∀ self y self', f x self = (y, self') → R x y) True o →
  ∀ self o' self', optM f o self = (o', self') → option_Forall2 R o o'.
Proof.
  destruct o as [x|]; cbn; intros Hx self o' self' Hrun.
  - run_all Hrun. inversion Hrun; subst. constructor; eauto.
  - inversion Hrun; subst. constructor.
Qed.

Lemma Forall2_map_eq {A B C} (g : A → C) (h : B → C) l ys :
  Forall2 (λ x y, h y = g x) l ys → map h ys = map g l.
Proof. induction 1; cbn; congruence. Qed.

Lemma option_Forall2_map_eq {A B C} (g : A → C) (h : B → C) o o' :
  option_Forall2 (λ x y, h y = g x) o o' → option_map h o' = option_map g o.
Proof. destruct 1; cbn; congruence. Qed.

Lemma accept_untagged :
  (∀ s self s' self', accept s self = (s', self') → untagged s' = untagged s)
  ∧ (∀ b dead self b' self',
       visit_block_marked dead b self = (b', self') →
       untagged_block b' = untagged_block b).
Proof.
  apply Statement_Block_ind.
  - intros l e lv rv self s' self' H. by inversion H.
  - intros l e x self s' self' H. by inversion H.
  - intros l e x self s' self' H. by inversion H.
  - intros l e x msg self s' self' H. rewrite accept_AssertStmt in H.
    run_all H. by inversion H.
  - intros l e xs body else_body Hbody Helse self s' self' H.
    rewrite accept_IfStmt in H. run_all H. inversion H; subst; clear H.
    cbn. f_equal.
    + eapply Forall2_map_eq, mapM_marked_Forall2; [|exact H2].
      eapply Forall_impl; [exact Hbody|]. cbn. eauto.
    + eapply option_Forall2_map_eq, optM_Forall2; [|exact H3].
      destruct else_body; cbn in *; eauto.
  - intros l e index x body else_body Hbody Helse self s' self' H.
    rewrite accept_ForStmt in H. run_all H. inversion H; subst; clear H.
    cbn. f_equal; [eauto|].
    eapply option_Forall2_map_eq, optM_Forall2; [|exact H1].
    destruct else_body; cbn in *; eauto.
  - intros l e subject guards bodies Hbodies self s' self' H.
    rewrite accept_MatchStmt in H. run_all H. inversion H; subst; clear H.
    cbn. f_equal.
    eapply Forall2_map_eq, mapM_marked_Forall2; [|exact H2].
    eapply Forall_impl; [exact Hbodies|]. cbn. eauto.
  - intros l e ids t self s' self' H. by inversion H.
  - intros l e id rel names t self s' self' H. by inversion H.
  - intros l e id rel t self s' self' H. by inversion H.
  - intros l e name body Hbody self s' self' H.
    rewrite accept_FuncDef in H. run_all H. inversion H; subst; clear H.
    cbn. f_equal. eauto.
  - intros l e name body Hbody self s' self' H.
    rewrite accept_ClassDef in H. run_all H. inversion H; subst; clear H.
    cbn. f_equal. eauto.
  - intros b Hb self s' self' H.
    rewrite accept_BlockStmt in H. run_all H. inversion H; subst; clear H.
    cbn. f_equal. eauto.
  - intros l e children Hch self s' self' H.
    rewrite accept_OtherStmt in H. run_all H. inversion H; subst; clear H.
    cbn. f_equal.
    change (map untagged_child x = map untagged_child children).
    eapply Forall2_map_eq, mapM_Forall2; [|exact H0].
    eapply Forall_impl; [exact Hch|]. intros [ex|st] Hc self0 c' self0' Hrun;
      cbn in *; run_all Hrun; inversion Hrun; subst; cbn; f_equal; eauto.
  - intros l e body u Hbody dead self b' self' H.
    rewrite visit_block_marked_eq in H. destruct (u || dead).
    + run_all H. by inversion H.
    + run_all H. inversion H; subst; clear H. cbn. f_equal.
      eapply Forall2_map_eq, mapM_Forall2; [|exact H0].
      eapply Forall_impl; [exact Hbody|]. cbn. eauto.
Qed.

Lemma untagged_AssertStmt (s : Stmt) : is_AssertStmt s = true → untagged s = s.
Proof. by destruct s. Qed.

Lemma is_AssertStmt_untagged (s : Stmt) :
  is_AssertStmt (untagged s) = is_AssertStmt s.
Proof. by destruct s. Qed.

Lemma line_untagged (s : Stmt) : line (untagged s) = line s.
Proof. destruct s as [| | | | | | | | | | | |[]|]; done. Qed.

Lemma end_line_untagged (s : Stmt) : end_line (untagged s) = end_line s.
Proof. destruct s as [| | | | | | | | | | | |[]|]; done. Qed.

Lemma accept_AssertStmt_same s self s' self' :
  accept s self = (s', self') → is_AssertStmt s = true → s' = s.
Proof.
  intros H Hs. apply accept_untagged in H.
  rewrite <- (untagged_AssertStmt s), <- H by done.
  symmetry. apply untagged_AssertStmt.
  by rewrite <- is_AssertStmt_untagged, H, is_AssertStmt_untagged.
Qed.

Lemma accept_failing opts s self s' self' :
  accept s self = (s', self') → failing opts s' = failing opts s.
Proof.
  intros H. unfold PreAnalysis.failing.
  destruct (is_AssertStmt s) eqn:Hs.
  - by rewrite (accept_AssertStmt_same _ _ _ _ H Hs), Hs.
  - apply accept_untagged in H.
    by rewrite <- is_AssertStmt_untagged, H, is_AssertStmt_untagged, Hs.
Qed.


(** *** The loop over the top-level statements *)

Lemma last_cons_default {A} (x : A) r d d' :
  List.last (x :: r) d = List.last (x :: r) d'.
Proof. revert x. induction r as [|y r IH]; intros x; [done|]. apply (IH y). Qed.

Lemma last_app_cons {A} (l : list A) x r d d' :
  List.last (l ++ x :: r) d = List.last (x :: r) d'.
Proof.
  induction l as [|y l IH]; [apply last_cons_default|].
  rewrite <- IH. destruct l; done.
Qed.

Lemma add_skipped_lines_empty (self : Vis) :
  (add_skipped_lines ∅ self).2 = self.
Proof. destruct self. unfold add_skipped_lines; cbn. by rewrite (right_id_L ∅ (∪)). Qed.

Lemma mapM_nil_run {A B} (f : A → M Expression B) (self : Vis) :
  mapM f [] self = ([], self).
Proof. done. Qed.

Lemma mapM_cons_run {A B} (f : A → M Expression B) x l (self : Vis) :
  mapM f (x :: l) self
  = ((f x self).1 :: (mapM f l (f x self).2).1, (mapM f l (f x self).2).2).
Proof.
  cbn [mapM]. rewrite bind_run, bind_run. done.
Qed.

Lemma visit_defs_run opts done l self :
  visit_defs opts done l self
  = (done ++ (mapM accept (kept_defs opts l) self).1,
     (add_skipped_lines (truncated_span (removed_defs opts l))
        (mapM accept (kept_defs opts l) self).2).2).
Proof.
  revert done self. induction l as [|s r IH]; intros done self.
  - cbn [PreAnalysis.visit_defs PreAnalysis.kept_defs PreAnalysis.removed_defs mapM truncated_span].
    unfold ret, mret, M_ret. cbn [fst snd].
    by rewrite app_nil_r, add_skipped_lines_empty.
  - cbn [PreAnalysis.visit_defs PreAnalysis.kept_defs PreAnalysis.removed_defs].
    rewrite bind_run. destruct (accept s self) as [s' self1] eqn:Hs.
    cbn [fst snd].
    change (is_AssertStmt s' && assert_will_always_fail s' opts)
      with (failing opts s').
    rewrite (accept_failing opts _ _ _ _ Hs).
    destruct (failing opts s) eqn:Hf.
    + assert (s' = s) as ->.
      { apply (accept_AssertStmt_same _ _ _ _ Hs).
        unfold PreAnalysis.failing in Hf. by destruct (is_AssertStmt s). }
      rewrite mapM_cons_run, mapM_nil_run, Hs. cbn [fst snd].
      rewrite bind_run.
      assert (take (length done + 1) (done ++ s :: r) = done ++ [s]) as ->.
      { rewrite take_app_add'; done. }
      unfold ret at 2, mret, M_ret. cbn [fst snd]. f_equal.
      destruct r as [|next r'].
      * rewrite bool_decide_false by (rewrite length_app; cbn; lia).
        cbn [truncated_span]. by rewrite add_skipped_lines_empty.
      * rewrite bool_decide_true by (rewrite !length_app; cbn; lia).
        cbn [truncated_span].
        rewrite (last_app_cons done s (next :: r') s next).
        change (s :: next :: r') with ([s] ++ next :: r') at 1.
        rewrite (last_app_cons [s] next r' next next).
        replace (nth (length done + 1) (done ++ s :: next :: r') s) with next.
        2:{ rewrite app_nth2_plus. done. }
        destruct (end_line (List.last (next :: r') next)); [done|].
        by rewrite add_skipped_lines_empty.
    + rewrite IH, mapM_cons_run, Hs. cbn [fst snd].
      by rewrite <- app_assoc.
Qed.


(** *** The whole pass in closed form *)

Lemma mapM_accept_tracks l :
  tracks (mapM accept l) (λ top ys, concat (map (reached top) ys)).
Proof.
  apply tracks_mapM, Forall_forall. intros s _. apply accept_tracks.
Qed.

Lemma visit_file_run self file fnam mod_id opts :
  let kept :=
    (mapM accept (kept_defs opts (defs file))
       (fresh_visitor file mod_id opts)).1 in
  let R := concat (map (reached true) kept) in
  let skipped := spans R ∪ truncated_span (removed_defs opts (defs file)) in
  visit_file self file fnam mod_id opts
  = mkVisitor (Options.platform opts) mod_id
      (mkMypyFile kept (path file) (is_stub file)
         (is_partial_stub_package file
          || (is_stub file && is_package_init_file (path file) && hooks R))
         skipped)
      opts true skipped (exprs R).
Proof.
  intros kept R skipped. unfold PreAnalysis.visit_file.
  fold (fresh_visitor file mod_id opts). rewrite visit_defs_run.
  fold kept.
  destruct (mapM accept (kept_defs opts (defs file))
              (fresh_visitor file mod_id opts)) as [kept' self1] eqn:Hrun.
  apply mapM_accept_tracks in Hrun as [-> _].
  cbn in kept. subst kept. fold R. cbn.
  rewrite (left_id_L ∅ (∪)). done.
Qed.


(** *** The statements kept and removed *)

Lemma kept_removed opts (l : list Stmt) :
  kept_defs opts l ++ removed_defs opts l = l.
Proof.
  induction l as [|s r IH]; [done|]. cbn.
  destruct (failing opts s); cbn; congruence.
Qed.

Lemma kept_defs_whole opts (l : list Stmt) :
  Forall (λ s, failing opts s = false) l →
  kept_defs opts l = l ∧ removed_defs opts l = [].
Proof.
  induction 1 as [|s r Hs _ [IH1 IH2]]; [done|]. cbn. rewrite Hs. by rewrite IH1.
Qed.

Lemma kept_defs_cut opts (pre : list Stmt) a post :
  Forall (λ s, failing opts s = false) pre → failing opts a = true →
  kept_defs opts (pre ++ a :: post) = pre ++ [a]
  ∧ removed_defs opts (pre ++ a :: post) = post.
Proof.
  intros Hpre Ha. induction Hpre as [|s r Hs _ [IH1 IH2]]; cbn.
  - by rewrite Ha.
  - rewrite Hs. by rewrite IH1.
Qed.

Lemma kept_defs_app opts (pre : list Stmt) l :
  Forall (λ s, failing opts s = false) pre →
  kept_defs opts (pre ++ l) = pre ++ kept_defs opts l
  ∧ removed_defs opts (pre ++ l) = removed_defs opts l.
Proof.
  induction 1 as [|s r Hs _ [IH1 IH2]]; [done|]. cbn. rewrite Hs. by rewrite IH1.
Qed.

(** *** What a walk over a list returns *)

Lemma mapM_app_run {A B} (f : A → M Expression B) l1 l2 (self : Vis) :
  mapM f (l1 ++ l2) self
  = ((mapM f l1 self).1 ++ (mapM f l2 (mapM f l1 self).2).1,
     (mapM f l2 (mapM f l1 self).2).2).
Proof.
  revert self. induction l1 as [|x l1 IH]; intros self.
  - rewrite mapM_nil_run. cbn. by destruct (mapM f l2 self).
  - cbn [app]. rewrite !mapM_cons_run, IH. done.
Qed.

Lemma mapM_accept_length l (self : Vis) :
  length (mapM accept l self).1 = length l.
Proof.
  revert self. induction l as [|s l IH]; intros self; [done|].
  rewrite mapM_cons_run. cbn. by rewrite IH.
Qed.

Lemma mapM_accept_untagged l (self : Vis) :
  map untagged (mapM accept l self).1 = map untagged l.
Proof.
  revert self. induction l as [|s l IH]; intros self; [done|].
  rewrite mapM_cons_run. cbn. rewrite IH. f_equal.
  destruct (accept s self) as [s' self'] eqn:Hs.
  by apply accept_untagged in Hs.
Qed.

(** *** Reading the summaries of a walk *)

Lemma elem_of_spans (R : list (bool * Node Expression)) x :
  x ∈ spans R ↔
  ∃ top l e body,
    (top, NBlock (mkBlock l (Some e) body true)) ∈ R ∧ (l ≤ x ≤ e)%Z.
Proof.
  unfold spans. rewrite elem_of_union_list. split.
  - intros (X & HX & Hx). apply list_elem_of_fmap in HX as ([top n] & -> & Hn).
    destruct n as [| |[l [e|] body []]]; cbn in Hx;
      try (by apply not_elem_of_empty in Hx).
    apply elem_of_line_range in Hx. eauto 10.
  - intros (top & l & e & body & Hn & Hx).
    exists (line_range l e). split; [|by apply elem_of_line_range].
    apply list_elem_of_fmap.
    by exists (top, NBlock (mkBlock l (Some e) body true)).
Qed.

Lemma hooks_true (R : list (bool * Node Expression)) :
  hooks R = true ↔
  ∃ l e body, (true, NStmt (FuncDef l e "__getattr__" body)) ∈ R.
Proof.
  unfold hooks. rewrite existsb_exists. split.
  - intros ([top n] & Hn & Hh). apply list_elem_of_In in Hn.
    destruct n as [|s|]; try done. destruct s; try done.
    cbn in Hh. apply andb_prop in Hh as [Htop Hname].
    apply String.eqb_eq in Hname. destruct top; [|done]. subst. eauto.
  - intros (l & e & body & Hn). eexists. split.
    + apply list_elem_of_In. exact Hn.
    + done.
Qed.


Lemma visit_file_defs self file fnam mod_id opts :
  defs (cur_mod_node (visit_file self file fnam mod_id opts))
  = (mapM accept (kept_defs opts (defs file))
       (fresh_visitor file mod_id opts)).1.
Proof. by rewrite visit_file_run. Qed.

Lemma visit_file_skipped self file fnam mod_id opts :
  file_skipped_lines (cur_mod_node (visit_file self file fnam mod_id opts))
  = spans (concat (map (reached true)
             (defs (cur_mod_node (visit_file self file fnam mod_id opts)))))
    ∪ truncated_span (removed_defs opts (defs file)).
Proof. by rewrite visit_file_run. Qed.

Lemma walk_skipped l file mod_id opts :
  skipped_lines (mapM accept l (fresh_visitor file mod_id opts)).2
  = spans (concat (map (reached true)
             (mapM accept l (fresh_visitor file mod_id opts)).1)).
Proof.
  destruct (mapM accept l (fresh_visitor file mod_id opts)) as [l' self'] eqn:H.
  apply mapM_accept_tracks in H as [-> _]. cbn. by rewrite (left_id_L ∅ (∪)).
Qed.

Lemma walk_accepted l file mod_id opts :
  accepted (mapM accept l (fresh_visitor file mod_id opts)).2
  = exprs (concat (map (reached true)
             (mapM accept l (fresh_visitor file mod_id opts)).1)).
Proof.
  destruct (mapM accept l (fresh_visitor file mod_id opts)) as [l' self'] eqn:H.
  by apply mapM_accept_tracks in H as [-> _].
Qed.

Lemma elem_of_truncated_span (removed : list Stmt) x :
  x ∈ truncated_span removed ↔
  ∃ next_def rest e,
    removed = next_def :: rest
    ∧ end_line (List.last removed next_def) = Some e
    ∧ (line next_def ≤ x ≤ e)%Z.
Proof.
  destruct removed as [|next_def rest]; cbn [truncated_span].
  - split; [by intros ?%not_elem_of_empty|]. by intros (? & ? & ? & ? & _).
  - destruct (end_line (List.last (next_def :: rest) next_def)) as [e|] eqn:He.
    + rewrite elem_of_line_range. split; [by eauto 10|].
      intros (? & ? & ? & [= <- <-] & He' & ?). rewrite He in He'. by inversion He'; subst.
    + split; [by intros ?%not_elem_of_empty|].
      intros (? & ? & ? & [= <- <-] & He' & ?). by rewrite He in He'.
Qed.

(** *** The tags written depend on the options and the scope flag only *)

Lemma determined_ret {A} (a : A) : determined (ret a : M Expression A).
Proof. intros self1 self2 H. done. Qed.

Lemma determined_bind {A B} (m : M Expression A) (k : A → M Expression B) :
  determined m → (∀ a, determined (k a)) → determined (m ≫= k).
Proof.
  intros Hm Hk self1 self2 H. rewrite !bind_run.
  destruct (Hm self1 self2 H) as [-> H']. by apply Hk.
Qed.

Lemma determined_mapM {A B} (f : A → M Expression B) l :
  Forall (λ x, determined (f x)) l → determined (mapM f l).
Proof.
  induction 1 as [|x l Hx _ IH]; [apply determined_ret|].
  cbn [mapM]. apply determined_bind; [done|]. intros y.
  apply determined_bind; [done|]. intros ys. apply determined_ret.
Qed.

Lemma determined_optM {A B} (f : A → M Expression B) o :
  from_option (λ x, determined (f x)) True o → determined (optM f o).
Proof.
  destruct o as [x|]; cbn; intros Hx; [|apply determined_ret].
  apply determined_bind; [done|]. intros y. apply determined_ret.
Qed.

Lemma determined_mapM_marked {B C} (f : bool → B → M Expression C) bs :
  Forall (λ b, ∀ dead, determined (f dead b)) bs →
  ∀ tags, determined (mapM_marked f bs tags).
Proof.
  induction 1 as [|b bs Hb _ IH]; intros tags; [apply determined_ret|].
  cbn [mapM_marked]. apply determined_bind; [done|]. intros c.
  apply determined_bind; [done|]. intros cs. apply determined_ret.
Qed.

Lemma determined_accept_expr (e : Expression) : determined (accept_expr e).
Proof. intros self1 self2 H. done. Qed.

Lemma determined_add_skipped_lines X :
  determined (add_skipped_lines X : M Expression ()).
Proof. intros self1 self2 H. done. Qed.

Lemma determined_set_is_global_scope b :
  determined (set_is_global_scope b : M Expression ()).
Proof. intros self1 self2 [H _]. done. Qed.

Lemma determined_gets_options (k : Options.t → M Expression Stmt) :
  (∀ o, determined (k o)) → determined (gets options ≫= k).
Proof.
  intros Hk self1 self2 H. rewrite !bind_run. cbn.
  destruct H as [Ho Hg]. rewrite Ho. apply Hk. by split.
Qed.

Lemma determined_gets_is_global_scope {A} (k : bool → M Expression A) :
  (∀ g, determined (k g)) → determined (gets is_global_scope ≫= k).
Proof.
  intros Hk self1 self2 H. rewrite !bind_run. cbn.
  destruct H as [Ho Hg]. rewrite Hg. apply Hk. by split.
Qed.

Lemma determined_stub_check (name : string) (s : Stmt) :
  determined
    (file_node ← gets cur_mod_node;
     g ← gets is_global_scope;
     (if g && is_stub file_node && String.eqb name "__getattr__"
         && is_package_init_file (path file_node)
      then set_is_partial_stub_package else ret tt);;
     ret s).
Proof.
  intros self1 self2 H. rewrite !bind_run. cbn [gets fst snd].
  split; [done|].
  destruct (_ && _ && _ && _), (_ && _ && _ && _); exact H.
Qed.

Lemma accept_determined :
  (∀ s, determined (accept s))
  ∧ (∀ b dead, determined (visit_block_marked dead b)).
Proof.
  apply Statement_Block_ind.
  - intros. apply determined_ret.
  - intros. apply determined_ret.
  - intros. apply determined_ret.
  - intros l e x msg. rewrite accept_AssertStmt.
    apply determined_bind; [|intros _; apply determined_ret].
    apply determined_bind; [apply determined_accept_expr|]. intros _.
    apply determined_bind; [|intros _; apply determined_ret].
    apply determined_optM. destruct msg; cbn; [apply determined_accept_expr|done].
  - intros l e xs body else_body Hbody Helse. rewrite accept_IfStmt.
    apply determined_gets_options. intros o. cbn zeta.
    apply determined_bind.
    { apply determined_mapM, Forall_forall. intros. apply determined_accept_expr. }
    intros _. apply determined_bind; [by apply determined_mapM_marked|].
    intros body'. apply determined_bind; [|intros; apply determined_ret].
    apply determined_optM. destruct else_body; cbn in *; [apply Helse|done].
  - intros l e index x body else_body Hbody Helse. rewrite accept_ForStmt.
    apply determined_bind; [apply Hbody|]. intros body'.
    apply determined_bind; [|intros; apply determined_ret].
    apply determined_optM. destruct else_body; cbn in *; [apply Helse|done].
  - intros l e subject guards bodies Hbodies. rewrite accept_MatchStmt.
    apply determined_gets_options. intros o. cbn zeta.
    apply determined_bind.
    { apply determined_mapM, Forall_forall. intros g _.
      apply determined_optM. destruct g; cbn; [apply determined_accept_expr|done]. }
    intros _. apply determined_bind; [by apply determined_mapM_marked|].
    intros; apply determined_ret.
  - intros l e ids t. rewrite accept_Import.
    apply determined_gets_is_global_scope. intros; apply determined_ret.
  - intros l e id rel names t. rewrite accept_ImportFrom.
    apply determined_gets_is_global_scope. intros; apply determined_ret.
  - intros l e id rel t. rewrite accept_ImportAll.
    apply determined_gets_is_global_scope. intros; apply determined_ret.
  - intros l e name body Hbody. rewrite accept_FuncDef.
    apply determined_gets_is_global_scope. intros g.
    apply determined_bind; [apply determined_set_is_global_scope|]. intros _.
    apply determined_bind; [apply Hbody|]. intros body'.
    apply determined_bind; [apply determined_set_is_global_scope|]. intros _.
    apply determined_stub_check.
  - intros l e name body Hbody. rewrite accept_ClassDef.
    apply determined_gets_is_global_scope. intros g.
    apply determined_bind; [apply determined_set_is_global_scope|]. intros _.
    apply determined_bind; [apply Hbody|]. intros body'.
    apply determined_bind; [apply determined_set_is_global_scope|]. intros _.
    apply determined_ret.
  - intros b Hb. rewrite accept_BlockStmt.
    apply determined_bind; [apply Hb|]. intros; apply determined_ret.
  - intros l e children Hch. rewrite accept_OtherStmt.
    apply determined_bind; [|intros; apply determined_ret].
    apply determined_mapM. eapply Forall_impl; [exact Hch|].
    intros [ex|st] Hc; cbn in *.
    + apply determined_bind; [apply determined_accept_expr|].
      intros; apply determined_ret.
    + apply determined_bind; [done|]. intros; apply determined_ret.
  - intros l e body u Hbody dead. rewrite visit_block_marked_eq.
    destruct (u || dead).
    + apply determined_bind; [|intros; apply determined_ret].
      destruct e; [apply determined_add_skipped_lines|apply determined_ret].
    + apply determined_bind; [by apply determined_mapM|].
      intros; apply determined_ret.
Qed.

Lemma walk_determined (l : list Stmt) file1 file2 mod_id1 mod_id2 opts :
  (mapM accept l (fresh_visitor file1 mod_id1 opts)).1
  = (mapM accept l (fresh_visitor file2 mod_id2 opts)).1.
Proof.
  apply determined_mapM; [|done].
  apply Forall_forall. intros s _. apply accept_determined.
Qed.

Lemma visit_file_reaches self file fnam mod_id opts pre s post :
  defs file = pre ++ s :: post →
  Forall (λ s, failing opts s = false) pre →
  ∃ self1,
    options self1 = opts ∧ is_global_scope self1 = true
    ∧ defs (cur_mod_node (visit_file self file fnam mod_id opts)) !! length pre
      = Some (accept s self1).1.
Proof.
  intros Hdefs Hpre.
  exists (mapM accept pre (fresh_visitor file mod_id opts)).2.
  assert (∃ rest, kept_defs opts (s :: post) = s :: rest) as [rest Hrest].
  { cbn. destruct (failing opts s); eauto. }
  split; [|split].
  - destruct (mapM accept pre (fresh_visitor file mod_id opts)) as [l' self'] eqn:H.
    by apply mapM_accept_tracks in H as [-> _].
  - destruct (mapM accept pre (fresh_visitor file mod_id opts)) as [l' self'] eqn:H.
    by apply mapM_accept_tracks in H as [-> _].
  - rewrite visit_file_defs, Hdefs.
    destruct (kept_defs_app opts pre (s :: post) Hpre) as [-> _].
    rewrite Hrest, mapM_app_run. cbn [fst].
    rewrite lookup_app_r by (by rewrite mapM_accept_length).
    rewrite mapM_accept_length, Nat.sub_diag, mapM_cons_run. done.
Qed.

(** ** Properties of the pass *)

(** C1 (as amended): when the first always-failing top-level assert [a] is
    followed by the statements [post], the module keeps exactly the
    statements up to [a] (the same nodes, tags apart), every line from the
    start line of the first statement of [post] through the end line of its
    last statement is skipped, and that span is left out exactly when the
    last statement's end line is unavailable: the end lines of the other
    statements play no role. *)
Theorem C1_truncation_keeps_prefix self file fnam mod_id opts pre a post :
  defs file = pre ++ a :: post →
  post ≠ [] →
  Forall (λ s, failing opts s = false) pre →
  failing opts a = true →
  let file' := cur_mod_node (visit_file self file fnam mod_id opts) in
  defs file' = (mapM accept (pre ++ [a]) (fresh_visitor file mod_id opts)).1
  ∧ length (defs file') = length pre + 1
  ∧ map untagged (defs file') = map untagged (pre ++ [a])
  ∧ (∀ e x, end_line (List.last post a) = Some e →
            (line (hd a post) ≤ x ≤ e)%Z → x ∈ file_skipped_lines file')
  ∧ (end_line (List.last post a) = None →
     file_skipped_lines file'
     = skipped_lines
         (mapM accept (pre ++ [a]) (fresh_visitor file mod_id opts)).2).
Proof.
  intros Hdefs Hpost Hpre Ha file'.
  destruct (kept_defs_cut opts pre a post Hpre Ha) as [Hkept Hremoved].
  assert (defs file'
          = (mapM accept (pre ++ [a]) (fresh_visitor file mod_id opts)).1) as Hd.
  { unfold file'. by rewrite visit_file_defs, Hdefs, Hkept. }
  assert (file_skipped_lines file'
          = skipped_lines
              (mapM accept (pre ++ [a]) (fresh_visitor file mod_id opts)).2
            ∪ truncated_span post) as Hs.
  { unfold file'. rewrite visit_file_skipped, visit_file_defs, Hdefs, Hkept, Hremoved.
    by rewrite walk_skipped. }
  split; [done|]. rewrite Hd, mapM_accept_length, mapM_accept_untagged, length_app.
  split; [done|]. split; [done|].
  destruct post as [|next_def rest]; [done|]. cbn [hd].
  rewrite (last_cons_default next_def rest a next_def). split.
  - intros e x He Hx. rewrite Hs. apply elem_of_union_r.
    apply elem_of_truncated_span. eauto 10.
  - intros He. rewrite Hs. cbn [truncated_span]. rewrite He.
    by rewrite (right_id_L ∅ (∪)).
Qed.

(** C7: when the first always-failing top-level assert is the last
    top-level statement, the module keeps all its statements (the same
    nodes, in order) and the skipped lines are those the walk itself
    collected: truncation adds none. *)
Theorem C7_failing_assert_last self file fnam mod_id opts pre a :
  defs file = pre ++ [a] →
  Forall (λ s, failing opts s = false) pre →
  failing opts a = true →
  let file' := cur_mod_node (visit_file self file fnam mod_id opts) in
  defs file' = (mapM accept (defs file) (fresh_visitor file mod_id opts)).1
  ∧ length (defs file') = length (defs file)
  ∧ map untagged (defs file') = map untagged (defs file)
  ∧ truncated_span (removed_defs opts (defs file)) = ∅
  ∧ file_skipped_lines file'
    = skipped_lines (mapM accept (defs file) (fresh_visitor file mod_id opts)).2.
Proof.
  intros Hdefs Hpre Ha file'.
  destruct (kept_defs_cut opts pre a [] Hpre Ha) as [Hkept Hremoved].
  assert (defs file'
          = (mapM accept (defs file) (fresh_visitor file mod_id opts)).1) as Hd.
  { unfold file'. by rewrite visit_file_defs, Hdefs, Hkept. }
  split; [done|]. rewrite Hd, mapM_accept_length, mapM_accept_untagged.
  split; [done|]. split; [done|]. rewrite Hdefs, Hremoved. split; [done|].
  unfold file'. rewrite visit_file_skipped, visit_file_defs, Hdefs, Hkept, Hremoved.
  rewrite walk_skipped. cbn [truncated_span]. by rewrite (right_id_L ∅ (∪)).
Qed.


(** C10: [visit_file] overwrites every attribute of the visitor before it
    walks, so its result does not depend on the visitor it is called on:
    two calls with the same module and options agree, whatever the visitor
    went through before; the module they leave (statement sequence, tags,
    skipped lines, stub-package flag) is the same even under another file
    name or module id. *)
Theorem C10_visit_file_reinitializes :
  (∀ self1 self2 file fnam1 fnam2 mod_id opts,
     visit_file self1 file fnam1 mod_id opts
     = visit_file self2 file fnam2 mod_id opts)
  ∧ (∀ self earlier fnam0 mod_id0 opts0 file fnam mod_id opts,
       visit_file (visit_file self earlier fnam0 mod_id0 opts0)
         file fnam mod_id opts
       = visit_file self file fnam mod_id opts)
  ∧ (∀ self1 self2 file fnam1 fnam2 mod_id1 mod_id2 opts,
       cur_mod_node (visit_file self1 file fnam1 mod_id1 opts)
       = cur_mod_node (visit_file self2 file fnam2 mod_id2 opts))
  ∧ (∀ (file : MypyFile Expression) mod_id opts,
       is_global_scope (fresh_visitor file mod_id opts) = true
       ∧ skipped_lines (fresh_visitor file mod_id opts) = ∅).
Proof.
  split; [done|]. split; [done|]. split; [|done].
  intros self1 self2 file fnam1 fnam2 mod_id1 mod_id2 opts.
  rewrite !visit_file_run. cbn [cur_mod_node].
  by rewrite (walk_determined _ file file mod_id1 mod_id2 opts).
Qed.

(** C8: only an always-failing assert that is itself a top-level statement
    truncates the module.  Without one, every top-level statement is walked
    and kept, whatever asserts lie inside them; a statement that is not an
    assert never triggers the rule.  With one, the walk covers the statements
    up to the first such assert and no statement after it, even when later
    statements are failing asserts too. *)
Theorem C8_truncation_only_at_top_level self file fnam mod_id opts :
  let out := visit_file self file fnam mod_id opts in
  let fresh := fresh_visitor file mod_id opts in
  (∀ s, is_AssertStmt s = false → failing opts s = false)
  ∧ (Forall (λ s, failing opts s = false) (defs file) →
     defs (cur_mod_node out) = (mapM accept (defs file) fresh).1
     ∧ length (defs (cur_mod_node out)) = length (defs file)
     ∧ skipped_lines out = skipped_lines (mapM accept (defs file) fresh).2
     ∧ accepted out = accepted (mapM accept (defs file) fresh).2)
  ∧ (∀ pre a post,
       defs file = pre ++ a :: post →
       Forall (λ s, failing opts s = false) pre →
       failing opts a = true →
       defs (cur_mod_node out) = (mapM accept (pre ++ [a]) fresh).1
       ∧ length (defs (cur_mod_node out)) = length pre + 1
       ∧ skipped_lines out
         = skipped_lines (mapM accept (pre ++ [a]) fresh).2 ∪ truncated_span post
       ∧ accepted out = accepted (mapM accept (pre ++ [a]) fresh).2
       ∧ (∀ post2,
            truncated_span post2 = truncated_span post →
            visit_file self
              (mkMypyFile (pre ++ a :: post2) (path file) (is_stub file)
                 (is_partial_stub_package file) (file_skipped_lines file))
              fnam mod_id opts
            = out)).
Proof.
  intros out fresh. split; [|split].
  - intros s Hs. unfold PreAnalysis.failing. by rewrite Hs.
  - intros Hall. destruct (kept_defs_whole opts _ Hall) as [Hkept Hremoved].
    unfold out. rewrite visit_file_run. cbn. rewrite Hkept, Hremoved.
    fold fresh. rewrite mapM_accept_length.
    destruct (mapM accept (defs file) fresh) as [l' self'] eqn:H.
    apply mapM_accept_tracks in H as [-> _]. cbn.
    by rewrite (left_id_L ∅ (∪)), (right_id_L ∅ (∪)).
  - intros pre a post Hdefs Hpre Ha.
    destruct (kept_defs_cut opts pre a post Hpre Ha) as [Hkept Hremoved].
    unfold out, fresh. rewrite visit_file_run. cbn zeta.
    rewrite Hdefs, Hkept, Hremoved.
    cbn [defs cur_mod_node skipped_lines accepted].
    split; [done|]. split; [by rewrite mapM_accept_length, length_app|].
    split; [by rewrite walk_skipped|]. split; [by rewrite walk_accepted|].
    intros post2 Hspan. rewrite visit_file_run. cbn zeta.
    cbn [defs path is_stub is_partial_stub_package].
    destruct (kept_defs_cut opts pre a post2 Hpre Ha) as [-> ->].
    rewrite Hspan.
    by rewrite (walk_determined _ _ file mod_id mod_id opts).
Qed.

(** C9: no step of the pass removes a line from the skipped-line set, and
    every line in the set the pass ends with lies in the span of a block
    that the walker reached with its unreachable tag set, or in the span of
    the statements that truncation removed. *)
Theorem C9_skipped_lines_grow_within_spans :
  (∀ s self, skipped_lines self ⊆ skipped_lines (accept s self).2)
  ∧ (∀ b self, skipped_lines self ⊆ skipped_lines (visit_block b self).2)
  ∧ (∀ opts done l self,
       skipped_lines self ⊆ skipped_lines (visit_defs opts done l self).2)
  ∧ (∀ self file fnam mod_id opts,
       let out := visit_file self file fnam mod_id opts in
       file_skipped_lines (cur_mod_node out) = skipped_lines out
       ∧ ∀ x, x ∈ skipped_lines out →
           (∃ top l e body,
              (top, NBlock (mkBlock l (Some e) body true))
                ∈ concat (map (reached true) (defs (cur_mod_node out)))
              ∧ (l ≤ x ≤ e)%Z)
           ∨ (∃ next_def rest e,
                removed_defs opts (defs file) = next_def :: rest
                ∧ end_line (List.last (removed_defs opts (defs file)) next_def)
                  = Some e
                ∧ (line next_def ≤ x ≤ e)%Z)).
Proof.
  assert (∀ s self, skipped_lines self ⊆ skipped_lines (accept s self).2) as Hs.
  { intros s self. destruct (accept s self) as [s' self'] eqn:H.
    apply accept_tracks in H as [-> _]. cbn. apply union_subseteq_l. }
  assert (∀ l self, skipped_lines self ⊆ skipped_lines (mapM accept l self).2) as Hl.
  { intros l self. destruct (mapM accept l self) as [l' self'] eqn:H.
    apply mapM_accept_tracks in H as [-> _]. cbn. apply union_subseteq_l. }
  split; [exact Hs|]. split; [|split].
  - intros b self. unfold PreAnalysis.visit_block.
    destruct (visit_block_marked false b self) as [b' self'] eqn:H.
    apply accept_tracks in H as [-> _]. cbn. apply union_subseteq_l.
  - intros opts done l self. rewrite visit_defs_run. cbn.
    etrans; [apply (Hl (kept_defs opts l))|]. apply union_subseteq_l.
  - intros self file fnam mod_id opts out. unfold out.
    rewrite visit_file_run. cbn zeta. cbn [cur_mod_node file_skipped_lines skipped_lines defs].
    split; [done|]. intros x [Hx|Hx]%elem_of_union.
    + left. by apply elem_of_spans.
    + right. by apply elem_of_truncated_span.
Qed.

(** *** Visitors that agree on the options and the scope flag *)

Lemma agree_step (a' a b' b : Vis) :
  agree a' a → agree b' b → agree a b → agree a' b'.
Proof. unfold PreAnalysis.agree. intuition congruence. Qed.

Lemma tracks_agree {X} (m : M Expression X) ρ :
  tracks m ρ → ∀ self, agree (m self).2 self.
Proof.
  intros Ht self. destruct (m self) as [x self'] eqn:H.
  apply Ht in H as [-> _]. by split.
Qed.

Lemma accept_agree s (self : Vis) : agree (accept s self).2 self.
Proof.
  destruct (accept s self) as [s' self'] eqn:H.
  apply accept_tracks in H as [-> _]. by split.
Qed.

Lemma mapM_accept_agree l (self : Vis) : agree (mapM accept l self).2 self.
Proof.
  destruct (mapM accept l self) as [l' self'] eqn:H.
  apply mapM_accept_tracks in H as [-> _]. by split.
Qed.

Lemma visit_block_marked_agree dead b (self : Vis) :
  agree (visit_block_marked dead b self).2 self.
Proof. eapply tracks_agree, accept_tracks. Qed.

Lemma mapM_marked_cons_run {B C} (f : bool → B → M Expression C) b bs tags
    (self : Vis) :
  mapM_marked f (b :: bs) tags self
  = ((f (hd false tags) b self).1
       :: (mapM_marked f bs (tl tags) (f (hd false tags) b self).2).1,
     (mapM_marked f bs (tl tags) (f (hd false tags) b self).2).2).
Proof. cbn [mapM_marked]. rewrite bind_run, bind_run. done. Qed.

Lemma mapM_agree {A B} (f : A → M Expression B) l :
  (∀ x self, agree (f x self).2 self) → ∀ self, agree (mapM f l self).2 self.
Proof.
  intros Hf. induction l as [|x l IH]; intros self; [by split|].
  rewrite mapM_cons_run. cbn [snd].
  eapply agree_step; [apply IH|split; reflexivity|apply Hf].
Qed.

Lemma mapM_marked_agree {B C} (f : bool → B → M Expression C) bs :
  (∀ dead b self, agree (f dead b self).2 self) →
  ∀ tags self, agree (mapM_marked f bs tags self).2 self.
Proof.
  intros Hf. induction bs as [|b bs IH]; intros tags self; [by split|].
  rewrite mapM_marked_cons_run. cbn [snd].
  eapply agree_step; [apply IH|split; reflexivity|apply Hf].
Qed.

Lemma optM_agree {A B} (f : A → M Expression B) o :
  (∀ x self, agree (f x self).2 self) → ∀ self, agree (optM f o self).2 self.
Proof.
  intros Hf self. destruct o; cbn [optM]; [|by split].
  rewrite bind_run. apply Hf.
Qed.

Lemma mapM_accept_determined (l : list Stmt) : determined (mapM accept l).
Proof.
  apply determined_mapM, Forall_forall. intros s _. apply accept_determined.
Qed.

Lemma visit_block_marked_node dead bl be bb u (st self : Vis) :
  agree st self →
  (visit_block_marked dead (mkBlock bl be bb u) st).1
  = if u || dead then mkBlock bl be bb true
    else mkBlock bl be (mapM accept bb self).1 false.
Proof.
  intros Hag. rewrite visit_block_marked_eq. destruct (u || dead).
  - by rewrite bind_run.
  - rewrite bind_run. destruct (mapM_accept_determined bb st self Hag) as [<- _].
    done.
Qed.

Lemma mapM_marked_lookup bs :
  ∀ tags (st self : Vis) i bl be bb u,
    agree st self →
    bs !! i = Some (mkBlock bl be bb u) →
    (mapM_marked visit_block_marked bs tags st).1 !! i
    = Some (if u || nth i tags false then mkBlock bl be bb true
            else mkBlock bl be (mapM accept bb self).1 false).
Proof.
  induction bs as [|b bs IH]; intros tags st self i bl be bb u Hag Hi; [done|].
  rewrite mapM_marked_cons_run. cbn [fst]. destruct i as [|i]; cbn in Hi |- *.
  - inversion Hi; subst.
    rewrite (visit_block_marked_node _ _ _ _ _ st self Hag).
    by destruct tags.
  - rewrite (IH (tl tags) _ self i bl be bb u); [| |exact Hi].
    + by destruct tags; [destruct i|].
    + eapply agree_step; [apply visit_block_marked_agree| |exact Hag].
      by split.
Qed.

Lemma spans_exprs top (xs : list Expression) :
  spans (concat (map (reached_expr top) xs)) = ∅.
Proof.
  induction xs as [|x xs IH]; [done|]. cbn [map concat reached_expr].
  rewrite spans_app, IH. cbn. by rewrite !(left_id_L ∅ (∪)).
Qed.

(** *** The oracle's marks, seen by [visit_block] *)

Lemma visit_block_marked_mark dead b :
  visit_block_marked dead b = visit_block (mark_block_unreachable dead b).
Proof.
  destruct b as [l e body u]. unfold PreAnalysis.visit_block.
  cbn [mark_block_unreachable]. rewrite !visit_block_marked_eq.
  by rewrite !orb_false_r.
Qed.

Lemma mapM_marked_mark bs tags :
  mapM_marked visit_block_marked bs tags = mapM visit_block (mark_blocks tags bs).
Proof.
  revert tags. induction bs as [|b bs IH]; intros tags; [done|].
  cbn [mapM_marked mark_blocks mapM]. by rewrite IH, visit_block_marked_mark.
Qed.

Lemma visit_block_unreachable l e body (self : Vis) :
  visit_block (mkBlock l e body true) self
  = (mkBlock l e body true,
     match e with
     | Some e' => (add_skipped_lines (line_range l e') self).2
     | None => self
     end).
Proof.
  unfold PreAnalysis.visit_block. rewrite visit_block_marked_eq. cbn [orb].
  rewrite bind_run. by destruct e.
Qed.

Lemma visit_block_reachable l e body (self : Vis) :
  visit_block (mkBlock l e body false) self
  = (mkBlock l e (mapM accept body self).1 false, (mapM accept body self).2).
Proof.
  unfold PreAnalysis.visit_block. rewrite visit_block_marked_eq. cbn [orb].
  by rewrite bind_run.
Qed.

(** C2: a block reached with its unreachable tag set is left as it is, none
    of its statements is visited, and its lines from start line through end
    line are added to the skipped-line set when its end line is available:
    afterwards a line is in the set exactly when it was there before or lies
    between the two, bounds included; nothing is added when the end line is
    not available.  A block whose tag is not set has its statements visited
    one after the other, each from the visitor the previous one left. *)
Theorem C2_visit_block b self :
  (Block_is_unreachable b = true →
   (visit_block b self).1 = b
   ∧ accepted (visit_block b self).2 = accepted self
   ∧ (∀ e, Block_end_line b = Some e →
        (visit_block b self).2
        = (add_skipped_lines (line_range (Block_line b) e) self).2
        ∧ skipped_lines (visit_block b self).2
          = skipped_lines self ∪ line_range (Block_line b) e
        ∧ (∀ x, x ∈ skipped_lines (visit_block b self).2
                ↔ x ∈ skipped_lines self ∨ (Block_line b ≤ x ≤ e)%Z))
   ∧ (Block_end_line b = None → (visit_block b self).2 = self))
  ∧ (Block_is_unreachable b = false →
     visit_block b self
     = (mkBlock (Block_line b) (Block_end_line b)
          (mapM accept (Block_body b) self).1 false,
        (mapM accept (Block_body b) self).2))
  ∧ (∀ s rest,
       mapM accept (s :: rest) self
       = ((accept s self).1 :: (mapM accept rest (accept s self).2).1,
          (mapM accept rest (accept s self).2).2)).
Proof.
  destruct b as [l e body u]. cbn [Block_is_unreachable Block_line Block_end_line Block_body].
  split; [|split].
  - intros ->. rewrite visit_block_unreachable. cbn [fst snd].
    split; [done|]. split; [by destruct e|]. split.
    + intros e' ->. split; [done|]. split; [done|].
      intros x. cbn [add_skipped_lines snd skipped_lines].
      by rewrite elem_of_union, elem_of_line_range.
    + by intros ->.
  - intros ->. apply visit_block_reachable.
  - intros s rest. apply mapM_cons_run.
Qed.

(** C6: [visit_if_stmt] asks the oracle first, then visits every guard
    expression, in order and whatever the tags are, then every body block
    and the else block as the oracle marked them.  Each arm, and the else
    block when there is one, is kept in its place: tagged, by the oracle or
    before, it comes out tagged with its statements untouched; untagged, it
    comes out with its statements walked.  The visitor is advanced by the
    guards and by the nodes reached in the blocks that come out, so the lines
    skipped are those of the tagged blocks reached, bounds included. *)
Theorem C6_visit_if_stmt l e xs body else_body self :
  let tags :=
    infer_reachability_of_if_statement (IfStmt l e xs body else_body)
      (options self) in
  let guarded := (mapM accept_expr xs self).2 in
  let arms := mapM visit_block (mark_blocks tags.1 body) guarded in
  let last :=
    optM visit_block (option_map (mark_block_unreachable tags.2) else_body)
      arms.2 in
  let top := is_global_scope self in
  let R := concat (map (reached_block top) arms.1)
           ++ from_option (reached_block top) [] last.1 in
  accept (IfStmt l e xs body else_body) self
  = (IfStmt l e xs arms.1 last.1, last.2)
  ∧ guarded = advance self (concat (map (reached_expr (is_global_scope self)) xs))
  ∧ accepted guarded = accepted self ++ xs
  ∧ (∃ later, accepted last.2 = accepted self ++ xs ++ later)
  ∧ (∀ bl be bbody st,
       visit_block (mkBlock bl be bbody false) st
       = (mkBlock bl be (mapM accept bbody st).1 false,
          (mapM accept bbody st).2))
  ∧ (∀ bl be bbody st,
       (visit_block (mkBlock bl be bbody true) st).1 = mkBlock bl be bbody true
       ∧ accepted (visit_block (mkBlock bl be bbody true) st).2 = accepted st)
  ∧ length arms.1 = length body
  ∧ (∀ i bl be bb u,
       body !! i = Some (mkBlock bl be bb u) →
       arms.1 !! i
       = Some (if u || nth i tags.1 false then mkBlock bl be bb true
               else mkBlock bl be (mapM accept bb self).1 false))
  ∧ (∀ bl be bb u,
       else_body = Some (mkBlock bl be bb u) →
       last.1
       = Some (if u || tags.2 then mkBlock bl be bb true
               else mkBlock bl be (mapM accept bb self).1 false))
  ∧ (else_body = None → last.1 = None)
  ∧ accepted last.2 = accepted self ++ xs ++ exprs R
  ∧ (∀ x, x ∈ skipped_lines last.2
          ↔ x ∈ skipped_lines self
            ∨ ∃ t bl be bb,
                (t, NBlock (mkBlock bl (Some be) bb true)) ∈ R
                ∧ (bl ≤ x ≤ be)%Z)
  ∧ Forall tag_ok R.
Proof.
  intros tags guarded arms last top R.
  assert (guarded
          = advance self (concat (map (reached_expr (is_global_scope self)) xs)))
    as Hg by apply mapM_accept_expr_run.
  assert (exprs (concat (map (reached_expr (is_global_scope self)) xs)) = xs)
    as Hxs.
  { clear. induction xs as [|x xs IH]; [done|]. cbn. unfold exprs in *. cbn.
    by rewrite IH. }
  assert (∀ b, tracks (visit_block b) reached_block) as Hb.
  { intros b. apply accept_tracks. }
  assert (arms.2 = advance guarded (concat (map (reached_block top) arms.1))
          ∧ Forall tag_ok (concat (map (reached_block top) arms.1)))
    as [Harms Hok1].
  { assert (is_global_scope guarded = top) as <-.
    { by rewrite Hg, is_global_scope_advance. }
    apply (tracks_mapM visit_block reached_block
             (mark_blocks tags.1 body));
      [apply Forall_forall; intros; apply Hb|apply surjective_pairing]. }
  assert (last.2 = advance arms.2 (from_option (reached_block top) [] last.1)
          ∧ Forall tag_ok (from_option (reached_block top) [] last.1))
    as [Hlast Hok2].
  { assert (is_global_scope arms.2 = top) as <-.
    { by rewrite Harms, Hg, !is_global_scope_advance. }
    apply (tracks_optM visit_block reached_block
             (option_map (mark_block_unreachable tags.2) else_body));
      [destruct else_body; cbn; [apply Hb|done]|apply surjective_pairing]. }
  assert (last.2
          = advance self
              (concat (map (reached_expr (is_global_scope self)) xs) ++ R))
    as Hall.
  { unfold R. by rewrite Hlast, Harms, Hg, !advance_app, <- ?(assoc_L (++)). }
  assert (agree guarded self) as Hag1.
  { rewrite Hg. by split. }
  assert (agree arms.2 self) as Hag2.
  { rewrite Harms, Hg. by split. }
  split; [|split; [exact Hg|split; [|split; [|split; [|split]]]]].
  - rewrite accept_IfStmt, bind_run. cbn [gets fst snd]. cbn zeta.
    rewrite bind_run. fold tags guarded.
    rewrite mapM_marked_mark, bind_run. fold arms.
    rewrite bind_run.
    replace (optM (visit_block_marked tags.2) else_body)
      with (optM visit_block (option_map (mark_block_unreachable tags.2) else_body)).
    + fold last. done.
    + destruct else_body; cbn; [|done]. by rewrite visit_block_marked_mark.
  - rewrite Hg. cbn. by rewrite Hxs.
  - rewrite Hall. cbn [accepted PreAnalysis.advance].
    rewrite exprs_app, Hxs. eauto.
  - intros bl be bbody st. apply visit_block_reachable.
  - intros bl be bbody st. rewrite visit_block_unreachable. by destruct be.
  - split; [|split; [|split; [|split; [|split; [|split]]]]].
    + unfold arms. clear. generalize guarded. generalize (tags.1).
      induction body as [|b bs IH]; intros tg st; [done|].
      cbn [mark_blocks]. rewrite mapM_cons_run. cbn [fst length].
      by rewrite IH.
    + intros i bl be bb u Hi. unfold arms. rewrite <- mapM_marked_mark.
      by apply mapM_marked_lookup.
    + intros bl be bb u ->. unfold last.
      cbn [option_map mark_block_unreachable optM]. rewrite bind_run.
      unfold PreAnalysis.visit_block.
      rewrite (visit_block_marked_node false bl be bb (u || tags.2) arms.2 self Hag2).
      by rewrite orb_false_r.
    + intros ->. done.
    + rewrite Hall. cbn [accepted PreAnalysis.advance].
      by rewrite exprs_app, Hxs.
    + intros x. rewrite Hall. cbn [skipped_lines PreAnalysis.advance].
      rewrite spans_app, spans_exprs, (left_id_L ∅ (∪)), elem_of_union.
      by rewrite elem_of_spans.
    + unfold R. by apply Forall_app.
Qed.

(** *** Scope of the nodes reached *)

Lemma Forall_concat_map {A B} (P : B → Prop) (f : A → list B) l :
  Forall (λ x, Forall P (f x)) l → Forall P (concat (map f l)).
Proof. induction 1; cbn; [constructor|]. by apply Forall_app. Qed.

Lemma elem_of_concat_map {A B} (f : A → list B) l y x :
  y ∈ l → x ∈ f y → x ∈ concat (map f l).
Proof.
  induction 1 as [y l|z y l _ IH]; cbn; intros Hx; apply elem_of_app; auto.
Qed.

Lemma reached_false :
  (∀ s : Stmt, Forall (λ n, n.1 = false) (reached false s))
  ∧ (∀ b : Block Expression, Forall (λ n, n.1 = false) (reached_block false b)).
Proof.
  apply Statement_Block_ind; intros; cbn [reached reached_block];
    (apply Forall_cons; split; [done|]);
    repeat first
      [ apply Forall_nil_2
      | apply Forall_app; split
      | assumption
      | apply Forall_concat_map ].
  - by repeat constructor.
  - destruct msg; by repeat constructor.
  - apply Forall_forall. intros. by repeat constructor.
  - destruct else_body; cbn in *; [done|constructor].
  - destruct else_body; cbn in *; [done|constructor].
  - apply Forall_forall. intros []; by repeat constructor.
  - eapply Forall_impl; [eassumption|]. intros [x|s] Hc; cbn in *; [|done].
    by repeat constructor.
  - destruct u; [constructor|]. by apply Forall_concat_map.
Qed.

Lemma hooks_false (R : list (bool * Node Expression)) :
  Forall (λ n, n.1 = false) R → hooks R = false.
Proof.
  induction 1 as [|[top n] R Hn _ IH]; [done|]. rewrite hooks_cons, IH.
  cbn in Hn. subst. by destruct n as [|[]|].
Qed.

Lemma tag_ok_import top (imp : Stmt) t :
  tag_ok (top, NStmt imp) → import_tag imp = Some t → t = top.
Proof. destruct imp; cbn; congruence. Qed.

Lemma accept_reached_tag_ok s (self : Vis) n :
  n ∈ reached (is_global_scope self) (accept s self).1 → tag_ok n.
Proof.
  destruct (accept s self) as [s' self'] eqn:H.
  apply accept_tracks in H as [_ H]. rewrite Forall_forall in H. apply H.
Qed.

Lemma accept_is_global_scope s (self : Vis) :
  is_global_scope (accept s self).2 = is_global_scope self.
Proof.
  destruct (accept s self) as [s' self'] eqn:H.
  by apply accept_tracks in H as [-> _].
Qed.

(** C5: an import-like statement that the walker reaches gets the tag of its
    place: true when no function or class body encloses it, false inside a
    function or class body at any depth.  Leaving a definition puts the scope
    flag back to what it was on entry, so a function nested in a function
    leaves it false. *)
Theorem C5_import_tags :
  (∀ s self, is_global_scope (accept s self).2 = is_global_scope self)
  ∧ (∀ (s : Stmt) n, n ∈ reached false s → n.1 = false)
  ∧ (∀ s self top imp t,
       (top, NStmt imp) ∈ reached (is_global_scope self) (accept s self).1 →
       import_tag imp = Some t → t = top)
  ∧ (∀ s self top imp t,
       is_scope_def s = true →
       (top, NStmt imp) ∈ reached (is_global_scope self) (accept s self).1 →
       import_tag imp = Some t → t = false)
  ∧ (∀ self file fnam mod_id opts,
       let out := visit_file self file fnam mod_id opts in
       is_global_scope out = true
       ∧ (∀ s t, s ∈ defs (cur_mod_node out) → import_tag s = Some t → t = true)
       ∧ (∀ top imp t,
            (top, NStmt imp)
              ∈ concat (map (reached true) (defs (cur_mod_node out))) →
            import_tag imp = Some t → t = top)).
Proof.
  split; [exact accept_is_global_scope|]. split; [|split; [|split]].
  - intros s n Hn. destruct reached_false as [H _].
    specialize (H s). rewrite Forall_forall in H. by apply H.
  - intros s self top imp t Hin Ht.
    eapply tag_ok_import; [|exact Ht]. by eapply accept_reached_tag_ok.
  - intros s self top imp t Hs Hin Ht.
    assert (t = top) as ->.
    { eapply tag_ok_import; [|exact Ht]. by eapply accept_reached_tag_ok. }
    destruct reached_false as [_ Hb].
    destruct s; try done.
    + rewrite accept_FuncDef in Hin. rewrite !bind_run in Hin.
      cbn [fst snd gets ret mret M_ret reached] in Hin.
      apply elem_of_cons in Hin as [Hin|Hin].
      * inversion Hin; subst. done.
      * specialize (Hb (visit_block_marked false body
                          (set_is_global_scope false self).2).1).
        rewrite Forall_forall in Hb. by apply Hb in Hin.
    + rewrite accept_ClassDef in Hin. rewrite !bind_run in Hin.
      cbn [fst snd gets ret mret M_ret reached] in Hin.
      apply elem_of_cons in Hin as [Hin|Hin].
      * inversion Hin; subst. done.
      * specialize (Hb (visit_block_marked false defs0
                          (set_is_global_scope false self).2).1).
        rewrite Forall_forall in Hb. by apply Hb in Hin.
  - intros self file fnam mod_id opts out. unfold out.
    rewrite visit_file_run. cbn zeta. cbn [is_global_scope cur_mod_node defs].
    split; [done|].
    destruct (mapM accept (kept_defs opts (defs file))
                (fresh_visitor file mod_id opts)) as [kept self'] eqn:H.
    apply mapM_accept_tracks in H as [_ H]. cbn [fst]. cbn in H.
    rewrite Forall_forall in H.
    assert (∀ top imp t,
              (top, NStmt imp) ∈ concat (map (reached true) kept) →
              import_tag imp = Some t → t = top) as Hall.
    { intros top imp t Hin Ht. eapply tag_ok_import; [|exact Ht]. by apply H. }
    split; [|exact Hall].
    intros s t Hs Ht. apply (Hall true s t); [|done].
    apply (elem_of_concat_map _ _ s); [done|].
    destruct s; apply list_elem_of_here.
Qed.

(** C4: the pass sets the stub-package flag exactly when it reaches a
    function definition for which the four conditions hold together: the
    definition lies at module scope, the module is a stub, the name is
    [__getattr__], and the module is a package initializer.  With any of the
    four false for every definition reached, a flag that was false stays
    false. *)
Theorem C4_stub_package_flag :
  (∀ l e name body self,
     is_partial_stub_package
       (cur_mod_node (accept (FuncDef l e name body) self).2)
     = is_partial_stub_package (cur_mod_node self)
       || (is_global_scope self && is_stub (cur_mod_node self)
           && String.eqb name "__getattr__"
           && is_package_init_file (path (cur_mod_node self))))
  ∧ (∀ self file fnam mod_id opts,
       let out := visit_file self file fnam mod_id opts in
       let R := concat (map (reached true) (defs (cur_mod_node out))) in
       let hook := ∃ l e body, (true, NStmt (FuncDef l e "__getattr__" body)) ∈ R in
       is_partial_stub_package (cur_mod_node out)
       = is_partial_stub_package file
         || (is_stub file && is_package_init_file (path file) && hooks R)
       ∧ (hooks R = true ↔ hook)
       ∧ (is_partial_stub_package file = false →
          (is_partial_stub_package (cur_mod_node out) = true
           ↔ is_stub file = true
             ∧ is_package_init_file (path file) = true
             ∧ hook))).
Proof.
  split.
  - intros l e name body self.
    destruct (accept (FuncDef l e name body) self) as [s' self'] eqn:H.
    pose proof H as Hu. apply accept_untagged in Hu.
    apply accept_tracks in H as [-> _].
    destruct s'; try done. cbn in Hu. inversion Hu; subst. clear Hu.
    cbn [snd reached PreAnalysis.advance cur_mod_node is_partial_stub_package].
    rewrite hooks_cons. cbn [is_getattr_hook].
    destruct reached_false as [_ Hb]. rewrite (hooks_false _ (Hb _)).
    rewrite orb_false_r. f_equal.
    destruct (is_global_scope self), (is_stub (cur_mod_node self)),
      (String.eqb name "__getattr__"),
      (is_package_init_file (path (cur_mod_node self))); done.
  - intros self file fnam mod_id opts out R hook.
    assert (is_partial_stub_package (cur_mod_node out)
            = is_partial_stub_package file
              || (is_stub file && is_package_init_file (path file) && hooks R))
      as Hflag.
    { unfold R, out. by rewrite visit_file_run. }
    split; [exact Hflag|]. split; [apply hooks_true|].
    intros Hfresh. rewrite Hflag, Hfresh. cbn [orb].
    rewrite !andb_true_iff. unfold hook. rewrite <- hooks_true.
    tauto.
Qed.

(** ** Further properties of the walker

    What the methods of the class keep, never do, and how visits compose. *)

Local Abbreviation File := (MypyFile Expression).

(** X1: a visit of a statement writes three things only on the visitor:
    the skipped-line set, the stub-package flag of the module, and the
    record of accepted expressions.  The platform, the module id, the
    options, the scope flag and the module's path, stub marker and own
    skipped-line set are as before; the flag is never cleared and the record
    only gets longer. *)
Theorem X1_accept_frame s self :
  let self' := (accept s self).2 in
  platform self' = platform self
  ∧ cur_mod_id self' = cur_mod_id self
  ∧ options self' = options self
  ∧ is_global_scope self' = is_global_scope self
  ∧ path (cur_mod_node self') = path (cur_mod_node self)
  ∧ is_stub (cur_mod_node self') = is_stub (cur_mod_node self)
  ∧ file_skipped_lines (cur_mod_node self')
    = file_skipped_lines (cur_mod_node self)
  ∧ (∃ set, is_partial_stub_package (cur_mod_node self')
            = is_partial_stub_package (cur_mod_node self) || set)
  ∧ (∃ later, accepted self' = accepted self ++ later).
Proof.
  intros self'. unfold self'.
  destruct (accept s self) as [s' self1] eqn:H.
  apply accept_tracks in H as [-> _]. cbn. eauto 12.
Qed.

Lemma accept_flag_nested s (self : Vis) :
  is_global_scope self = false →
  is_partial_stub_package (cur_mod_node (accept s self).2)
  = is_partial_stub_package (cur_mod_node self).
Proof.
  intros Hg. destruct (accept s self) as [s' self1] eqn:H.
  apply accept_tracks in H as [-> _]. rewrite Hg. cbn.
  destruct reached_false as [Hs _]. rewrite (hooks_false _ (Hs s')).
  by rewrite andb_false_r, orb_false_r.
Qed.

(** X2: only a definition at module scope can set the stub-package flag.
    A visit that starts inside a function or class body leaves the flag as
    it is, whatever it walks, and so does the visit of a class definition:
    a method named [__getattr__] does not make a stub package. *)
Theorem X2_flag_untouched_in_nested_scope :
  (∀ s self,
     is_global_scope self = false →
     is_partial_stub_package (cur_mod_node (accept s self).2)
     = is_partial_stub_package (cur_mod_node self))
  ∧ (∀ l e name body self,
       is_partial_stub_package
         (cur_mod_node (accept (ClassDef l e name body) self).2)
       = is_partial_stub_package (cur_mod_node self)).
Proof.
  split; [exact accept_flag_nested|].
  intros l e name body self.
  destruct (accept (ClassDef l e name body) self) as [s' self1] eqn:H.
  pose proof H as Hu. apply accept_untagged in Hu.
  apply accept_tracks in H as [-> _].
  destruct s'; try done. cbn [snd reached PreAnalysis.advance cur_mod_node
                              is_partial_stub_package].
  rewrite hooks_cons. cbn [is_getattr_hook orb].
  destruct reached_false as [_ Hb]. rewrite (hooks_false _ (Hb _)).
  by rewrite andb_false_r, orb_false_r.
Qed.

(** *** Statements the walker passes over *)

Lemma plain_accept (s : Stmt) (self : Vis) :
  is_plain_stmt s = true → accept s self = (s, self).
Proof. by destruct s. Qed.

Lemma plain_mapM_accept (l : list Stmt) (self : Vis) :
  forallb is_plain_stmt l = true → mapM accept l self = (l, self).
Proof.
  induction l as [|s l IH]; [done|]. cbn [forallb].
  intros [Hs Hl]%andb_prop. rewrite mapM_cons_run, (plain_accept _ _ Hs).
  cbn [fst snd]. by rewrite (IH Hl).
Qed.

Lemma plain_failing opts (l : list Stmt) :
  forallb is_plain_stmt l = true → Forall (λ s, failing opts s = false) l.
Proof.
  intros H. apply Forall_forall. intros s Hs.
  rewrite forallb_forall in H. apply list_elem_of_In, H in Hs.
  by destruct s.
Qed.

Lemma plain_reached top (l : list Stmt) :
  forallb is_plain_stmt l = true →
  hooks (concat (map (reached top) l)) = false
  ∧ spans (concat (map (reached top) l)) = ∅
  ∧ exprs (concat (map (reached top) l)) = [].
Proof.
  induction l as [|s l IH]; [done|]. cbn [forallb].
  intros [Hs Hl]%andb_prop. destruct (IH Hl) as (Hh & Hsp & He).
  cbn [map concat]. rewrite hooks_app, spans_app, exprs_app, Hh, Hsp, He.
  destruct s; try done; cbn [reached]; rewrite hooks_cons, spans_cons, exprs_cons;
    cbn; by rewrite ?(left_id_L ∅ (∪)).
Qed.

(** X3: a module whose top-level statements are all assignments, expression
    statements and returns, the empty module included, goes through the pass
    untouched: the statement list is the same, no expression is visited, no
    line is skipped, the stub-package flag is as before, and the module's
    own skipped-line set is overwritten with the empty set. *)
Theorem X3_plain_module_untouched self (file : File) fnam mod_id opts :
  forallb is_plain_stmt (defs file) = true →
  let out := visit_file self file fnam mod_id opts in
  defs (cur_mod_node out) = defs file
  ∧ accepted out = []
  ∧ skipped_lines out = ∅
  ∧ file_skipped_lines (cur_mod_node out) = ∅
  ∧ is_partial_stub_package (cur_mod_node out) = is_partial_stub_package file.
Proof.
  intros H out. unfold out. rewrite visit_file_run.
  destruct (kept_defs_whole opts _ (plain_failing opts _ H)) as [-> ->].
  rewrite (plain_mapM_accept _ _ H). cbn [fst snd].
  destruct (plain_reached true _ H) as (-> & -> & ->). cbn.
  by rewrite (left_id_L ∅ (∪)), andb_false_r, orb_false_r.
Qed.

(** *** Match and for statements *)


Lemma spans_guards top (guards : list (option Expression)) :
  spans (concat (map (from_option (reached_expr top) []) guards)) = ∅
  ∧ hooks (concat (map (from_option (reached_expr top) []) guards)) = false.
Proof.
  induction guards as [|[x|] guards [IH1 IH2]]; [done| |];
    cbn [map concat from_option reached_expr];
    rewrite spans_app, hooks_app, IH1, IH2; cbn;
    by rewrite ?(left_id_L ∅ (∪)).
Qed.




(** X5: [visit_for_stmt] visits the body block and then the else block when
    there is one, each through [visit_block], and nothing else: the index and
    the iterable are never visited, so the visitor it leaves is the same for
    any other loop header, and it is the visitor before advanced by the
    nodes reached in the two blocks. *)
Theorem X5_visit_for_stmt l e index x body else_body self :
  let b := visit_block body self in
  let eb := optM visit_block else_body b.2 in
  accept (ForStmt l e index x body else_body) self
  = (ForStmt l e index x b.1 eb.1, eb.2)
  ∧ eb.2 = advance self
             (reached_block (is_global_scope self) b.1
              ++ from_option (reached_block (is_global_scope self)) [] eb.1)
  ∧ (else_body = None → eb = (None, b.2))
  ∧ (∀ index' x',
       accept (ForStmt l e index' x' body else_body) self
       = (ForStmt l e index' x' b.1 eb.1, eb.2)).
Proof.
  intros b eb.
  assert (∀ i y, accept (ForStmt l e i y body else_body) self
                 = (ForStmt l e i y b.1 eb.1, eb.2)) as Heq.
  { intros i y. rewrite accept_ForStmt, bind_run.
    change (visit_block_marked false body self) with b.
    rewrite bind_run. by fold visit_block; fold eb. }
  split; [apply Heq|split; [|split; [|apply Heq]]].
  - assert (∀ b, tracks (visit_block b) reached_block) as Hb.
    { intros b0. apply accept_tracks. }
    destruct b as [b1 b2] eqn:Hb1. unfold b in Hb1.
    apply Hb in Hb1 as [-> _].
    destruct eb as [e1 e2] eqn:He. unfold eb in He. cbn [snd] in He.
    apply (tracks_optM visit_block reached_block) in He as [-> _];
      [|destruct else_body; cbn; [apply Hb|done]].
    cbn [fst snd]. by rewrite advance_app, is_global_scope_advance.
  - intros ->. done.
Qed.


(** *** The shape of the statement list the pass leaves *)

Lemma kept_defs_init opts (l : list Stmt) i s :
  kept_defs opts l !! i = Some s → S i < length (kept_defs opts l) →
  failing opts s = false.
Proof.
  revert i. induction l as [|x r IH]; intros i; [done|]. cbn [PreAnalysis.kept_defs].
  destruct (failing opts x) eqn:Hx.
  - cbn. lia.
  - destruct i as [|j]; cbn.
    + intros [= <-] _. exact Hx.
    + intros Hs Hlen. apply (IH j Hs). lia.
Qed.

Lemma kept_defs_last opts (l : list Stmt) :
  length (kept_defs opts l) < length l →
  ∃ a, last (kept_defs opts l) = Some a ∧ failing opts a = true.
Proof.
  induction l as [|x r IH]; cbn [PreAnalysis.kept_defs]; [cbn; lia|].
  destruct (failing opts x) eqn:Hx.
  - intros _. by exists x.
  - cbn [length]. intros Hlen. destruct IH as (a & Ha & Hf); [lia|].
    exists a. split; [|done]. rewrite last_cons. by rewrite Ha.
Qed.

Lemma kept_defs_nil opts (l : list Stmt) : kept_defs opts l = [] ↔ l = [].
Proof.
  split; [|by intros ->]. destruct l as [|x r]; [done|].
  cbn [PreAnalysis.kept_defs]. by destruct (failing opts x).
Qed.

Lemma mapM_accept_failing opts (l : list Stmt) (self : Vis) :
  map (failing opts) (mapM accept l self).1 = map (failing opts) l.
Proof.
  revert self. induction l as [|s l IH]; intros self; [done|].
  rewrite mapM_cons_run. cbn [fst map]. rewrite IH. f_equal.
  eapply accept_failing. apply surjective_pairing.
Qed.

Lemma walk_kept_init opts (l : list Stmt) (self : Vis) i s :
  (mapM accept (kept_defs opts l) self).1 !! i = Some s →
  S i < length (mapM accept (kept_defs opts l) self).1 →
  failing opts s = false.
Proof.
  intros Hs Hi. rewrite mapM_accept_length in Hi.
  assert (map (failing opts) (mapM accept (kept_defs opts l) self).1 !! i
          = Some (failing opts s)) as Hm.
  { change (map (failing opts)) with (fmap (M:=list) (failing opts)).
    by rewrite list_lookup_fmap, Hs. }
  rewrite mapM_accept_failing in Hm.
  change (map (failing opts)) with (fmap (M:=list) (failing opts)) in Hm.
  apply list_lookup_fmap_Some_1 in Hm as (s0 & Heq & Hs0).
  rewrite Heq. by apply (kept_defs_init opts l i).
Qed.

Lemma kept_defs_fix opts (l : list Stmt) :
  (∀ i s, l !! i = Some s → S i < length l → failing opts s = false) →
  kept_defs opts l = l ∧ removed_defs opts l = [].
Proof.
  induction l as [|x r IH]; [done|]. intros H.
  cbn [PreAnalysis.kept_defs PreAnalysis.removed_defs].
  destruct (failing opts x) eqn:Hx.
  - destruct r as [|y r]; [done|].
    specialize (H 0%nat x eq_refl). cbn in H. rewrite H in Hx by lia. done.
  - destruct IH as [-> ->]; [|done].
    intros i s Hs Hi. apply (H (S i) s Hs). cbn. lia.
Qed.

(** X6: whatever the module, the statement list the pass leaves is, tags
    apart, a prefix of the list it was given; no statement of it but the
    last is an always-failing assert; when it is shorter than the list
    given, its last statement is one; and it is empty only when the module
    was empty. *)
Theorem X6_result_is_a_prefix self (file : File) fnam mod_id opts :
  let out := defs (cur_mod_node (visit_file self file fnam mod_id opts)) in
  map untagged out `prefix_of` map untagged (defs file)
  ∧ (∀ i s, out !! i = Some s → S i < length out → failing opts s = false)
  ∧ (length out < length (defs file) →
     ∃ a, last out = Some a ∧ failing opts a = true)
  ∧ (out = [] ↔ defs file = []).
Proof.
  intros out. unfold out. rewrite visit_file_defs.
  set (fresh := fresh_visitor file mod_id opts).
  pose proof (mapM_accept_failing opts (kept_defs opts (defs file)) fresh) as Hf.
  pose proof (mapM_accept_length (kept_defs opts (defs file)) fresh) as Hlen.
  split; [|split; [|split]].
  - rewrite mapM_accept_untagged.
    exists (map untagged (removed_defs opts (defs file))).
    by rewrite <- map_app, kept_removed.
  - intros i s. apply walk_kept_init.
  - rewrite Hlen. intros Hlt.
    destruct (kept_defs_last opts _ Hlt) as (a & Ha & Hfa).
    rewrite last_lookup in Ha. rewrite last_lookup, Hlen.
    assert (map (failing opts) (kept_defs opts (defs file))
              !! pred (length (kept_defs opts (defs file))) = Some true) as Hm.
    { change (map (failing opts)) with (fmap (M:=list) (failing opts)).
      by rewrite list_lookup_fmap, Ha, <- Hfa. }
    rewrite <- Hf in Hm.
    change (map (failing opts)) with (fmap (M:=list) (failing opts)) in Hm.
    apply list_lookup_fmap_Some_1 in Hm as (s0 & Heq & Hs0). eauto.
  - rewrite <- (kept_defs_nil opts (defs file)). split.
    + intros H. apply nil_length_inv. rewrite <- Hlen, H. done.
    + intros H. apply nil_length_inv. rewrite Hlen, H. done.
Qed.

(** *** What a visit depends on *)

(** X7: the tags a visit writes and the nodes it reaches depend on two
    attributes of the visitor only, the options and the scope flag.  From
    two visitors that agree on these, the visit of a statement returns the
    same node and advances each visitor by the same reached nodes, whatever
    their module, module id, platform and skipped lines are. *)
Theorem X7_visit_reads_options_and_scope s self1 self2 :
  options self1 = options self2 →
  is_global_scope self1 = is_global_scope self2 →
  let s' := (accept s self1).1 in
  accept s self2 = (s', advance self2 (reached (is_global_scope self1) s')).
Proof.
  intros Ho Hg s'. unfold s'.
  destruct (accept_determined) as [Hd _].
  destruct (Hd s self1 self2) as [-> _]; [by split|].
  rewrite Hg.
  destruct (accept s self2) as [s2 self2'] eqn:H.
  apply accept_tracks in H as [-> _]. done.
Qed.

(** X8: the pass works through the top-level statements one after the
    other without memory.  When [l1] holds no always-failing assert, the
    pass over [l1 ++ l2] leaves the statements of the pass over [l1]
    followed by those of the pass over [l2]; the lines skipped are the union
    and the expressions visited the concatenation of those of the two
    passes, and the stub-package flag is set when one of the two sets it. *)
Theorem X8_pass_over_concatenation self (file : File) fnam mod_id opts l1 l2 :
  defs file = l1 ++ l2 →
  Forall (λ s, failing opts s = false) l1 →
  let part l :=
    visit_file self
      (mkMypyFile l (path file) (is_stub file) (is_partial_stub_package file)
         (file_skipped_lines file)) fnam mod_id opts in
  let out := visit_file self file fnam mod_id opts in
  defs (cur_mod_node out)
  = defs (cur_mod_node (part l1)) ++ defs (cur_mod_node (part l2))
  ∧ skipped_lines out = skipped_lines (part l1) ∪ skipped_lines (part l2)
  ∧ accepted out = accepted (part l1) ++ accepted (part l2)
  ∧ is_partial_stub_package (cur_mod_node out)
    = is_partial_stub_package (cur_mod_node (part l1))
      || is_partial_stub_package (cur_mod_node (part l2)).
Proof.
  intros Hdefs Hl1 part out. unfold out, part. rewrite !visit_file_run.
  cbn [defs path is_stub is_partial_stub_package file_skipped_lines
       cur_mod_node skipped_lines accepted]. rewrite Hdefs.
  destruct (kept_defs_app opts l1 l2 Hl1) as [-> ->].
  destruct (kept_defs_whole opts l1 Hl1) as [-> ->].
  set (f1 := mkMypyFile l1 _ _ _ _). set (f2 := mkMypyFile l2 _ _ _ _).
  rewrite mapM_app_run. cbn [fst].
  destruct (mapM_accept_determined (kept_defs opts l2)
              (mapM accept l1 (fresh_visitor file mod_id opts)).2
              (fresh_visitor f2 mod_id opts)) as [-> _].
  { destruct (mapM_accept_agree l1 (fresh_visitor file mod_id opts)) as [Ho Hg].
    split; [by rewrite Ho|by rewrite Hg]. }
  rewrite (walk_determined l1 file f1 mod_id mod_id opts).
  rewrite map_app, concat_app, spans_app, exprs_app, hooks_app.
  cbn [PreAnalysis.truncated_span].
  split; [done|split; [|split; [done|]]].
  - rewrite (right_id_L ∅ (∪)). by rewrite (assoc_L (∪)).
  - destruct (is_partial_stub_package file), (is_stub file),
      (is_package_init_file (path file)), (hooks _), (hooks _); done.
Qed.

(** *** Oracles that tag nothing *)

Lemma mapM_marked_false {B C} (f : bool → B → M Expression C) bs tags :
  Forall (λ t, t = false) tags → mapM_marked f bs tags = mapM (f false) bs.
Proof.
  revert tags. induction bs as [|b bs IH]; intros tags Ht; [done|].
  cbn [mapM_marked mapM]. rewrite IH.
  - by destruct Ht as [|t tags -> _].
  - destruct Ht; [apply Forall_nil_2|done].
Qed.

Lemma Forall2_forallb {A B} (p : A → bool) (q : B → bool) l ys :
  Forall2 (λ x y, p x = true → q y = true) l ys →
  forallb p l = true → forallb q ys = true.
Proof.
  induction 1 as [|x y l ys Hxy _ IH]; [done|]. cbn [forallb].
  intros [Hx Hl]%andb_prop. by rewrite (Hxy Hx), (IH Hl).
Qed.

Lemma option_Forall2_from_option {A B} (p : A → bool) (q : B → bool) o o' :
  option_Forall2 (λ x y, p x = true → q y = true) o o' →
  from_option p true o = true → from_option q true o' = true.
Proof. destruct 1; cbn; eauto. Qed.

Lemma accept_all_reachable :
  (∀ s o, Forall (λ t, t = false) (infer_reachability_of_if_statement s o).1
          ∧ (infer_reachability_of_if_statement s o).2 = false) →
  (∀ s o, Forall (λ t, t = false) (infer_reachability_of_match_statement s o)) →
  (∀ s self s' self',
     accept s self = (s', self') →
     all_reachable s = true → all_reachable s' = true)
  ∧ (∀ b self b' self',
       visit_block_marked false b self = (b', self') →
       all_reachable_block b = true → all_reachable_block b' = true).
Proof.
  intros Hif Hmatch. apply Statement_Block_ind.
  - intros l e lv rv self s' self' H. by inversion H.
  - intros l e x self s' self' H. by inversion H.
  - intros l e x self s' self' H. by inversion H.
  - intros l e x msg self s' self' H. rewrite accept_AssertStmt in H.
    run_all H. by inversion H.
  - intros l e xs body else_body Hbody Helse self s' self' H.
    rewrite accept_IfStmt in H. run_all H. inversion H; subst; clear H.
    rewrite mapM_marked_false in H2 by apply Hif.
    rewrite (proj2 (Hif _ _)) in H3.
    cbn [all_reachable]. intros [Hb He]%andb_prop. apply andb_true_intro. split.
    + eapply Forall2_forallb; [|exact Hb].
      eapply mapM_Forall2; [|exact H2].
      eapply Forall_impl; [exact Hbody|]. cbn. eauto.
    + eapply option_Forall2_from_option; [|exact He].
      eapply optM_Forall2; [|exact H3].
      destruct else_body; cbn in *; eauto.
  - intros l e index x body else_body Hbody Helse self s' self' H.
    rewrite accept_ForStmt in H. run_all H. inversion H; subst; clear H.
    cbn [all_reachable]. intros [Hb He]%andb_prop. apply andb_true_intro. split.
    + eauto.
    + eapply option_Forall2_from_option; [|exact He].
      eapply optM_Forall2; [|exact H1].
      destruct else_body; cbn in *; eauto.
  - intros l e subject guards bodies Hbodies self s' self' H.
    rewrite accept_MatchStmt in H. run_all H. inversion H; subst; clear H.
    rewrite mapM_marked_false in H2 by apply Hmatch.
    cbn [all_reachable]. intros Hb.
    eapply Forall2_forallb; [|exact Hb].
    eapply mapM_Forall2; [|exact H2].
    eapply Forall_impl; [exact Hbodies|]. cbn. eauto.
  - intros l e ids t self s' self' H. by inversion H.
  - intros l e id rel names t self s' self' H. by inversion H.
  - intros l e id rel t self s' self' H. by inversion H.
  - intros l e name body Hbody self s' self' H.
    rewrite accept_FuncDef in H. run_all H. inversion H; subst; clear H.
    cbn [all_reachable]. eauto.
  - intros l e name body Hbody self s' self' H.
    rewrite accept_ClassDef in H. run_all H. inversion H; subst; clear H.
    cbn [all_reachable]. eauto.
  - intros b Hb self s' self' H.
    rewrite accept_BlockStmt in H. run_all H. inversion H; subst; clear H.
    cbn [all_reachable]. eauto.
  - intros l e children Hch self s' self' H.
    rewrite accept_OtherStmt in H. run_all H. inversion H; subst; clear H.
    cbn [all_reachable]. intros Hc.
    eapply Forall2_forallb; [|exact Hc].
    eapply mapM_Forall2; [|exact H0].
    eapply Forall_impl; [exact Hch|]. intros [ex|st] Hc' self0 c' self0' Hrun;
      cbn in *; run_all Hrun; inversion Hrun; subst; cbn; eauto.
  - intros l e body u Hbody self b' self' H.
    rewrite visit_block_marked_eq in H. cbn [all_reachable_block].
    intros [Hu Hb]%andb_prop. apply negb_true_iff in Hu. subst u.
    cbn [orb] in H. run_all H. inversion H; subst; clear H.
    cbn [all_reachable_block negb andb].
    eapply Forall2_forallb; [|exact Hb].
    eapply mapM_Forall2; [|exact H0].
    eapply Forall_impl; [exact Hbody|]. cbn. eauto.
Qed.

Lemma spans_concat_empty {A} (ρ : A → list (bool * Node Expression)) l :
  Forall (λ x, spans (ρ x) = ∅) l → spans (concat (map ρ l)) = ∅.
Proof.
  induction 1 as [|x l Hx _ IH]; [done|]. cbn [map concat].
  by rewrite spans_app, Hx, IH, (left_id_L ∅ (∪)).
Qed.

Lemma Forall_forallb_impl {A} (p : A → bool) (P : A → Prop) l :
  Forall (λ x, p x = true → P x) l → forallb p l = true → Forall P l.
Proof.
  induction 1 as [|x l Hx _ IH]; [intros; apply Forall_nil_2|]. cbn [forallb].
  intros [Hp Hl]%andb_prop. apply Forall_cons_2; eauto.
Qed.

Lemma all_reachable_spans :
  (∀ (s : Stmt) top, all_reachable s = true → spans (reached top s) = ∅)
  ∧ (∀ (b : Block Expression) top,
       all_reachable_block b = true → spans (reached_block top b) = ∅).
Proof.
  assert (∀ top (xs : list Expression),
            spans (concat (map (reached_expr top) xs)) = ∅) as Hxs.
  { intros top xs. apply spans_concat_empty, Forall_forall. by intros. }
  apply Statement_Block_ind.
  - done.
  - done.
  - done.
  - intros l e x msg top _. cbn [reached]. rewrite spans_cons, spans_app.
    destruct msg; cbn; by rewrite !(left_id_L ∅ (∪)).
  - intros l e xs body else_body Hbody Helse top [Hb He]%andb_prop.
    cbn [reached]. rewrite spans_cons, !spans_app, Hxs.
    rewrite (spans_concat_empty (reached_block top) body).
    + destruct else_body as [eb|]; cbn [from_option] in *;
        [rewrite (Helse top He)|]; cbn; by rewrite !(left_id_L ∅ (∪)).
    + eapply Forall_forallb_impl; [|exact Hb].
      eapply Forall_impl; [exact Hbody|]. cbn. eauto.
  - intros l e index x body else_body Hbody Helse top [Hb He]%andb_prop.
    cbn [reached]. rewrite spans_cons, !spans_app, (Hbody top Hb).
    destruct else_body as [eb|]; cbn [from_option] in *;
      [rewrite (Helse top He)|]; cbn; by rewrite !(left_id_L ∅ (∪)).
  - intros l e subject guards bodies Hbodies top Hb.
    cbn [reached]. rewrite spans_cons, !spans_app.
    destruct (spans_guards top guards) as [-> _].
    rewrite (spans_concat_empty (reached_block top) bodies).
    + cbn. by rewrite !(left_id_L ∅ (∪)).
    + eapply Forall_forallb_impl; [|exact Hb].
      eapply Forall_impl; [exact Hbodies|]. cbn. eauto.
  - done.
  - done.
  - done.
  - intros l e name body Hbody top Hb. cbn [reached].
    rewrite spans_cons, (Hbody false Hb). cbn. by rewrite !(left_id_L ∅ (∪)).
  - intros l e name body Hbody top Hb. cbn [reached].
    rewrite spans_cons, (Hbody false Hb). cbn. by rewrite !(left_id_L ∅ (∪)).
  - intros b Hb top Hr. cbn [reached].
    rewrite spans_cons, (Hb top Hr). cbn. by rewrite !(left_id_L ∅ (∪)).
  - intros l e children Hch top Hc. cbn [reached]. rewrite spans_cons.
    rewrite (spans_concat_empty _ children).
    + cbn. by rewrite !(left_id_L ∅ (∪)).
    + eapply Forall_forallb_impl; [|exact Hc].
      eapply Forall_impl; [exact Hch|]. intros [ex|st] Hc'; cbn in *; eauto.
  - intros l e body u Hbody top [Hu Hb]%andb_prop.
    apply negb_true_iff in Hu. subst u. cbn [reached_block].
    rewrite spans_cons, (spans_concat_empty (reached top) body).
    + destruct e; cbn; by rewrite !(left_id_L ∅ (∪)).
    + eapply Forall_forallb_impl; [|exact Hb].
      eapply Forall_impl; [exact Hbody|]. cbn. eauto.
Qed.

(** X9: the pass prunes only what carries the unreachable tag, and only the
    oracles and the caller put that tag on a block.  With oracles that tag
    no block, a statement none of whose blocks is tagged comes out with
    none tagged, and its visit adds no line to the skipped-line set; over a
    module of such statements the pass skips the lines of the statements
    that truncation removed and no others. *)
Theorem X9_nothing_tagged_nothing_skipped :
  (∀ s o, Forall (λ t, t = false) (infer_reachability_of_if_statement s o).1
          ∧ (infer_reachability_of_if_statement s o).2 = false) →
  (∀ s o, Forall (λ t, t = false) (infer_reachability_of_match_statement s o)) →
  (∀ s self,
     all_reachable s = true →
     all_reachable (accept s self).1 = true
     ∧ skipped_lines (accept s self).2 = skipped_lines self)
  ∧ (∀ self (file : File) fnam mod_id opts,
       forallb all_reachable (defs file) = true →
       skipped_lines (visit_file self file fnam mod_id opts)
       = truncated_span (removed_defs opts (defs file))).
Proof.
  intros Hif Hmatch.
  destruct (accept_all_reachable Hif Hmatch) as [Hkeep _].
  destruct all_reachable_spans as [Hspans _].
  split.
  - intros s self Hs. destruct (accept s self) as [s' self'] eqn:H.
    pose proof (Hkeep _ _ _ _ H Hs) as Hs'.
    apply accept_tracks in H as [-> _]. cbn [fst snd]. split; [done|].
    cbn. by rewrite (Hspans _ _ Hs'), (right_id_L ∅ (∪)).
  - intros self file fnam mod_id opts Hall. rewrite visit_file_run.
    cbn [skipped_lines].
    rewrite spans_concat_empty; [by rewrite (left_id_L ∅ (∪))|].
    apply Forall_forall. intros s' Hs'. apply Hspans.
    assert (forallb all_reachable
              (mapM accept (kept_defs opts (defs file))
                 (fresh_visitor file mod_id opts)).1 = true) as Hout.
    { eapply Forall2_forallb.
      - eapply mapM_Forall2; [|apply surjective_pairing].
        apply Forall_forall. intros s _ st y st' Hrun. exact (Hkeep _ _ _ _ Hrun).
      - rewrite forallb_forall in Hall. apply forallb_forall.
        intros s Hs. apply Hall.
        rewrite <- (kept_removed opts (defs file)). apply in_or_app. by left. }
    rewrite forallb_forall in Hout. by apply Hout, list_elem_of_In.
Qed.

(** *** A second visit *)

Ltac unret := unfold ret, mret, M_ret, gets; cbn beta; cbn [fst snd].

Lemma accept_child_agree c (self : Vis) : agree (accept_child c self).2 self.
Proof.
  destruct c as [ex|st]; cbn [PreAnalysis.accept_child]; rewrite bind_run.
  - by split.
  - apply accept_agree.
Qed.

Lemma again_mapM {A} (f : A → M Expression A) l :
  (∀ x self, agree (f x self).2 self) →
  Forall (λ x, ∀ self self2, agree self self2 →
               (f (f x self).1 self2).1 = (f x self).1) l →
  ∀ self self2, agree self self2 →
    (mapM f (mapM f l self).1 self2).1 = (mapM f l self).1.
Proof.
  intros Hf. induction 1 as [|x l Hx _ IH]; intros self self2 Hag; [done|].
  rewrite (mapM_cons_run f x l self). cbn [fst]. rewrite mapM_cons_run.
  cbn [fst]. f_equal; [by apply Hx|].
  apply IH. eapply agree_step; [apply Hf|apply Hf|exact Hag].
Qed.

Lemma again_mapM_marked {B} (f : bool → B → M Expression B) bs :
  (∀ dead b self, agree (f dead b self).2 self) →
  Forall (λ b, ∀ dead self self2, agree self self2 →
               (f dead (f dead b self).1 self2).1 = (f dead b self).1) bs →
  ∀ tags self self2, agree self self2 →
    (mapM_marked f (mapM_marked f bs tags self).1 tags self2).1
    = (mapM_marked f bs tags self).1.
Proof.
  intros Hf. induction 1 as [|b bs Hb _ IH]; intros tags self self2 Hag; [done|].
  rewrite (mapM_marked_cons_run f b bs tags self). cbn [fst].
  rewrite mapM_marked_cons_run. cbn [fst]. f_equal; [by apply Hb|].
  apply IH. eapply agree_step; [apply Hf|apply Hf|exact Hag].
Qed.

Lemma again_optM {A} (f : A → M Expression A) o :
  from_option (λ x, ∀ self self2, agree self self2 →
                    (f (f x self).1 self2).1 = (f x self).1) True o →
  ∀ self self2, agree self self2 →
    (optM f (optM f o self).1 self2).1 = (optM f o self).1.
Proof.
  intros Ho self self2 Hag. destruct o as [x|]; cbn [optM from_option] in *;
    [|done].
  rewrite (bind_run (f x)). unret; cbn [optM]. rewrite bind_run. unret.
  f_equal. by apply Ho.
Qed.

Lemma accept_IfStmt_run l e xs body else_body (self : Vis) :
  accept (IfStmt l e xs body else_body) self
  = let tags :=
      infer_reachability_of_if_statement (IfStmt l e xs body else_body)
        (options self) in
    let r := mapM_marked visit_block_marked body tags.1
               (mapM accept_expr xs self).2 in
    let r' := optM (visit_block_marked tags.2) else_body r.2 in
    (IfStmt l e xs r.1 r'.1, r'.2).
Proof.
  rewrite accept_IfStmt, bind_run. cbn [gets fst snd]. cbn zeta.
  by rewrite !bind_run.
Qed.

Lemma accept_MatchStmt_run l e subject guards bodies (self : Vis) :
  accept (MatchStmt l e subject guards bodies) self
  = let tags :=
      infer_reachability_of_match_statement
        (MatchStmt l e subject guards bodies) (options self) in
    let r := mapM_marked visit_block_marked bodies tags
               (mapM (optM accept_expr) guards self).2 in
    (MatchStmt l e subject guards r.1, r.2).
Proof.
  rewrite accept_MatchStmt, bind_run. cbn [gets fst snd]. cbn zeta.
  by rewrite !bind_run.
Qed.

Lemma accept_ForStmt_run l e index x body else_body (self : Vis) :
  accept (ForStmt l e index x body else_body) self
  = let r := visit_block_marked false body self in
    let r' := optM (visit_block_marked false) else_body r.2 in
    (ForStmt l e index x r.1 r'.1, r'.2).
Proof. rewrite accept_ForStmt. by rewrite !bind_run. Qed.

Lemma accept_FuncDef_node l e name body (self : Vis) :
  (accept (FuncDef l e name body) self).1
  = FuncDef l e name
      (visit_block_marked false body (set_is_global_scope false self).2).1.
Proof.
  rewrite accept_FuncDef, bind_run. cbn [gets fst snd].
  by rewrite !bind_run.
Qed.

Lemma accept_ClassDef_node l e name body (self : Vis) :
  (accept (ClassDef l e name body) self).1
  = ClassDef l e name
      (visit_block_marked false body (set_is_global_scope false self).2).1.
Proof.
  rewrite accept_ClassDef, bind_run. cbn [gets fst snd].
  by rewrite !bind_run.
Qed.

Lemma accept_again :
  (∀ s1 s2 o, untagged s1 = untagged s2 →
     infer_reachability_of_if_statement s1 o
     = infer_reachability_of_if_statement s2 o) →
  (∀ s1 s2 o, untagged s1 = untagged s2 →
     infer_reachability_of_match_statement s1 o
     = infer_reachability_of_match_statement s2 o) →
  (∀ s self self2, agree self self2 →
     (accept (accept s self).1 self2).1 = (accept s self).1)
  ∧ (∀ b dead self self2, agree self self2 →
       (visit_block_marked dead (visit_block_marked dead b self).1 self2).1
       = (visit_block_marked dead b self).1).
Proof.
  intros Hif Hmatch.
  assert (∀ s (self : Vis), untagged (accept s self).1 = untagged s) as Hunt.
  { intros s self. eapply accept_untagged, surjective_pairing. }
  apply Statement_Block_ind.
  - done.
  - done.
  - done.
  - intros l e x msg self self2 _.
    assert (∀ st, (accept (AssertStmt l e x msg) st).1 = AssertStmt l e x msg)
      as Hs.
    { intros st. eapply accept_AssertStmt_same; [apply surjective_pairing|done]. }
    by rewrite !Hs.
  - intros l e xs body else_body Hbody Helse self self2 Hag.
    pose proof (Hunt (IfStmt l e xs body else_body) self) as Hu.
    rewrite accept_IfStmt_run in *. cbn zeta in *. cbn [fst] in *.
    rewrite accept_IfStmt_run. cbn zeta. cbn [fst].
    rewrite (Hif _ _ (options self2) Hu).
    destruct Hag as [Ho Hg]. rewrite <- Ho.
    assert (agree (mapM accept_expr xs self).2 (mapM accept_expr xs self2).2)
      as Hag1.
    { eapply agree_step; [| |split; [exact Ho|exact Hg]];
        apply mapM_agree; by intros. }
    f_equal.
    + apply again_mapM_marked;
        [apply visit_block_marked_agree|exact Hbody|exact Hag1].
    + apply again_optM.
      * destruct else_body; cbn [from_option] in *; [apply Helse|done].
      * eapply agree_step; [| |exact Hag1];
          apply mapM_marked_agree, visit_block_marked_agree.
  - intros l e index x body else_body Hbody Helse self self2 Hag.
    rewrite accept_ForStmt_run. cbn zeta. cbn [fst].
    rewrite accept_ForStmt_run. cbn zeta. cbn [fst].
    f_equal.
    + by apply Hbody.
    + apply again_optM.
      * destruct else_body; cbn [from_option] in *; [apply Helse|done].
      * eapply agree_step; [| |exact Hag]; apply visit_block_marked_agree.
  - intros l e subject guards bodies Hbodies self self2 Hag.
    pose proof (Hunt (MatchStmt l e subject guards bodies) self) as Hu.
    rewrite accept_MatchStmt_run in *. cbn zeta in *. cbn [fst] in *.
    rewrite accept_MatchStmt_run. cbn zeta. cbn [fst].
    rewrite (Hmatch _ _ (options self2) Hu).
    destruct Hag as [Ho Hg]. rewrite <- Ho.
    f_equal. apply again_mapM_marked;
      [apply visit_block_marked_agree|exact Hbodies|].
    eapply agree_step; [| |split; [exact Ho|exact Hg]];
      apply mapM_agree; intros; apply optM_agree; by intros.
  - intros l e ids t self self2 [_ Hg].
    rewrite accept_Import, bind_run. cbn [gets]; unret.
    rewrite accept_Import, bind_run. cbn [gets]; unret. by rewrite Hg.
  - intros l e id rel names t self self2 [_ Hg].
    rewrite accept_ImportFrom, bind_run. cbn [gets]; unret.
    rewrite accept_ImportFrom, bind_run. cbn [gets]; unret. by rewrite Hg.
  - intros l e id rel t self self2 [_ Hg].
    rewrite accept_ImportAll, bind_run. cbn [gets]; unret.
    rewrite accept_ImportAll, bind_run. cbn [gets]; unret. by rewrite Hg.
  - intros l e name body Hbody self self2 [Ho Hg].
    rewrite !accept_FuncDef_node. f_equal. apply Hbody. by split.
  - intros l e name body Hbody self self2 [Ho Hg].
    rewrite !accept_ClassDef_node. f_equal. apply Hbody. by split.
  - intros b Hb self self2 Hag. rewrite accept_BlockStmt, bind_run.
    unret. rewrite accept_BlockStmt, bind_run. unret.
    f_equal. by apply Hb.
  - intros l e children Hch self self2 Hag. rewrite accept_OtherStmt, bind_run.
    unret. rewrite accept_OtherStmt, bind_run. unret.
    f_equal. apply again_mapM; [apply accept_child_agree| |exact Hag].
    eapply Forall_impl; [exact Hch|].
    intros [ex|st] Hc st1 st2 Hag'; cbn [PreAnalysis.accept_child child_Prop] in *.
    + rewrite !bind_run. done.
    + rewrite (bind_run (accept st)). unret. cbn [PreAnalysis.accept_child].
      rewrite bind_run. unret. f_equal. by apply Hc.
  - intros l e body u Hbody dead self self2 Hag.
    rewrite (visit_block_marked_eq dead l e body u).
    destruct (u || dead) eqn:Hud.
    + rewrite bind_run. unret. rewrite visit_block_marked_eq.
      cbn [orb]. rewrite bind_run. done.
    + apply orb_false_elim in Hud as [-> ->].
      rewrite bind_run. unret. rewrite visit_block_marked_eq.
      cbn [orb]. rewrite bind_run. unret. f_equal.
      apply again_mapM; [apply accept_agree|exact Hbody|exact Hag].
Qed.

(** X10: with oracles that look at a statement tags apart, a statement the
    walker has visited is a fixed point of the walk.  Visiting it again,
    from any visitor with the same options and scope flag, returns the same
    node; and from the visitor the first visit left, the second visit adds
    no line to the skipped-line set and leaves the module as it is. *)
Theorem X10_second_visit_changes_nothing s self self2 :
  (∀ s1 s2 o, untagged s1 = untagged s2 →
     infer_reachability_of_if_statement s1 o
     = infer_reachability_of_if_statement s2 o) →
  (∀ s1 s2 o, untagged s1 = untagged s2 →
     infer_reachability_of_match_statement s1 o
     = infer_reachability_of_match_statement s2 o) →
  options self2 = options self →
  is_global_scope self2 = is_global_scope self →
  let r := accept s self in
  (accept r.1 self2).1 = r.1
  ∧ (accept r.1 r.2).1 = r.1
  ∧ skipped_lines (accept r.1 r.2).2 = skipped_lines r.2
  ∧ cur_mod_node (accept r.1 r.2).2 = cur_mod_node r.2.
Proof.
  intros Hif Hmatch Ho Hg r. subst r.
  destruct (accept_again Hif Hmatch) as [Hagain _].
  pose proof (Hagain s self self2 (conj (eq_sym Ho) (eq_sym Hg))) as H2.
  assert (agree self (accept s self).2) as Hag.
  { eapply agree_step; [| |split; reflexivity];
      [split; reflexivity|apply accept_agree]. }
  pose proof (Hagain s self _ Hag) as H1.
  split; [exact H2|split; [exact H1|]].
  destruct (accept s self) as [s1 st1] eqn:Hrun1. cbn [fst snd] in *.
  destruct (accept s1 st1) as [s2 st2] eqn:Hrun2. cbn [fst snd] in *.
  subst s2. apply accept_tracks in Hrun2 as [-> _].
  apply accept_tracks in Hrun1 as [-> _].
  rewrite is_global_scope_advance. cbn. split.
  - by rewrite <- (assoc_L (∪)), (idemp_L (∪)).
  - f_equal. destruct (is_partial_stub_package _), (is_stub _),
      (is_package_init_file _), (hooks _); done.
Qed.

(** X11: with oracles that look at a statement tags apart, the module the
    pass leaves is a fixed point of the pass but for the lines of truncated
    statements.  A second pass under the same options leaves the statement
    list and the stub-package flag as they are and visits the same
    expressions; the lines it skips are those of the first pass without
    the span of the statements that truncation removed, which are no
    longer there to be counted. *)
Theorem X11_second_pass self self2 (file : File) fnam fnam2 mod_id mod_id2 opts :
  (∀ s1 s2 o, untagged s1 = untagged s2 →
     infer_reachability_of_if_statement s1 o
     = infer_reachability_of_if_statement s2 o) →
  (∀ s1 s2 o, untagged s1 = untagged s2 →
     infer_reachability_of_match_statement s1 o
     = infer_reachability_of_match_statement s2 o) →
  let out1 := visit_file self file fnam mod_id opts in
  let out2 := visit_file self2 (cur_mod_node out1) fnam2 mod_id2 opts in
  defs (cur_mod_node out2) = defs (cur_mod_node out1)
  ∧ is_partial_stub_package (cur_mod_node out2)
    = is_partial_stub_package (cur_mod_node out1)
  ∧ accepted out2 = accepted out1
  ∧ skipped_lines out1
    = skipped_lines out2 ∪ truncated_span (removed_defs opts (defs file)).
Proof.
  intros Hif Hmatch out1 out2. unfold out2, out1.
  destruct (accept_again Hif Hmatch) as [Hagain _].
  rewrite (visit_file_run self2), (visit_file_run self).
  cbn [cur_mod_node defs path is_stub is_partial_stub_package
       file_skipped_lines skipped_lines accepted].
  set (fresh := fresh_visitor file mod_id opts).
  set (kept := (mapM accept (kept_defs opts (defs file)) fresh).1).
  destruct (kept_defs_fix opts kept) as [-> ->].
  { intros i s. apply walk_kept_init. }
  set (fresh2 := fresh_visitor _ mod_id2 opts).
  assert ((mapM accept kept fresh2).1 = kept) as ->.
  { apply again_mapM; [apply accept_agree| |by split].
    apply Forall_forall. intros s _. apply Hagain. }
  cbn [PreAnalysis.truncated_span]. rewrite (right_id_L ∅ (∪)).
  split; [done|split; [|split; [done|done]]].
  destruct (is_partial_stub_package file), (is_stub file),
    (is_package_init_file (path file)), (hooks _); done.
Qed.

(** *** What a visit leaves of the node *)

Lemma Forall2_forallb_back {A B} (p : A → bool) (q : B → bool) l ys :
  Forall2 (λ x y, q y = true → p x = true) l ys →
  forallb q ys = true → forallb p l = true.
Proof.
  induction 1 as [|x y l ys Hxy _ IH]; [done|]. cbn [forallb].
  intros [Hy Hl]%andb_prop. by rewrite (Hxy Hy), (IH Hl).
Qed.

Lemma option_Forall2_from_option_back {A B} (p : A → bool) (q : B → bool) o o' :
  option_Forall2 (λ x y, q y = true → p x = true) o o' →
  from_option q true o' = true → from_option p true o = true.
Proof. destruct 1; cbn; eauto. Qed.

Lemma accept_tags_kept :
  (∀ s self s' self',
     accept s self = (s', self') →
     all_reachable s' = true → all_reachable s = true)
  ∧ (∀ b dead self b' self',
       visit_block_marked dead b self = (b', self') →
       all_reachable_block b' = true → all_reachable_block b = true).
Proof.
  apply Statement_Block_ind.
  - intros l e lv rv self s' self' H. by inversion H.
  - intros l e x self s' self' H. by inversion H.
  - intros l e x self s' self' H. by inversion H.
  - intros l e x msg self s' self' H. rewrite accept_AssertStmt in H.
    run_all H. by inversion H.
  - intros l e xs body else_body Hbody Helse self s' self' H.
    rewrite accept_IfStmt in H. run_all H. inversion H; subst; clear H.
    cbn [all_reachable]. intros [Hb He]%andb_prop. apply andb_true_intro. split.
    + eapply Forall2_forallb_back; [|exact Hb].
      eapply mapM_marked_Forall2; [|exact H2].
      eapply Forall_impl; [exact Hbody|]. cbn. eauto.
    + eapply option_Forall2_from_option_back; [|exact He].
      eapply optM_Forall2; [|exact H3].
      destruct else_body; cbn in *; eauto.
  - intros l e index x body else_body Hbody Helse self s' self' H.
    rewrite accept_ForStmt in H. run_all H. inversion H; subst; clear H.
    cbn [all_reachable]. intros [Hb He]%andb_prop. apply andb_true_intro. split.
    + eauto.
    + eapply option_Forall2_from_option_back; [|exact He].
      eapply optM_Forall2; [|exact H1].
      destruct else_body; cbn in *; eauto.
  - intros l e subject guards bodies Hbodies self s' self' H.
    rewrite accept_MatchStmt in H. run_all H. inversion H; subst; clear H.
    cbn [all_reachable]. intros Hb.
    eapply Forall2_forallb_back; [|exact Hb].
    eapply mapM_marked_Forall2; [|exact H2].
    eapply Forall_impl; [exact Hbodies|]. cbn. eauto.
  - intros l e ids t self s' self' H. by inversion H.
  - intros l e id rel names t self s' self' H. by inversion H.
  - intros l e id rel t self s' self' H. by inversion H.
  - intros l e name body Hbody self s' self' H.
    rewrite accept_FuncDef in H. run_all H. inversion H; subst; clear H.
    cbn [all_reachable]. eauto.
  - intros l e name body Hbody self s' self' H.
    rewrite accept_ClassDef in H. run_all H. inversion H; subst; clear H.
    cbn [all_reachable]. eauto.
  - intros b Hb self s' self' H.
    rewrite accept_BlockStmt in H. run_all H. inversion H; subst; clear H.
    cbn [all_reachable]. eauto.
  - intros l e children Hch self s' self' H.
    rewrite accept_OtherStmt in H. run_all H. inversion H; subst; clear H.
    cbn [all_reachable]. intros Hc.
    eapply Forall2_forallb_back; [|exact Hc].
    eapply mapM_Forall2; [|exact H0].
    eapply Forall_impl; [exact Hch|]. intros [ex|st] Hc' self0 c' self0' Hrun;
      cbn in *; run_all Hrun; inversion Hrun; subst; cbn; eauto.
  - intros l e body u Hbody dead self b' self' H.
    rewrite visit_block_marked_eq in H. destruct (u || dead) eqn:Hud.
    + run_all H. inversion H; subst; clear H. done.
    + apply orb_false_elim in Hud as [-> ->].
      run_all H. inversion H; subst; clear H.
      cbn [all_reachable_block negb andb]. intros Hb.
      eapply Forall2_forallb_back; [|exact Hb].
      eapply mapM_Forall2; [|exact H0].
      eapply Forall_impl; [exact Hbody|]. cbn. eauto.
Qed.

(** X12: a visit writes tags on the node and nothing else.  The statement
    it returns is the statement it was given once the import tags and block
    tags are cleared on both, with the same line and end line; and it never
    clears a block tag: when no block of the result is tagged unreachable,
    none was tagged before. *)
Theorem X12_visit_writes_tags_only s self :
  let s' := (accept s self).1 in
  untagged s' = untagged s
  ∧ line s' = line s
  ∧ end_line s' = end_line s
  ∧ (all_reachable s' = true → all_reachable s = true).
Proof.
  intros s'. unfold s'.
  destruct (accept s self) as [s1 self1] eqn:H. cbn [fst].
  pose proof H as Hu. apply accept_untagged in Hu.
  split; [exact Hu|split; [|split]].
  - by rewrite <- (line_untagged s1), Hu, line_untagged.
  - by rewrite <- (end_line_untagged s1), Hu, end_line_untagged.
  - eapply accept_tags_kept, H.
Qed.

(** *** Spans that hold no line *)

Lemma line_range_inverted lo hi : (hi < lo)%Z → line_range lo hi = ∅.
Proof.
  intros H. apply set_eq. intros x. rewrite elem_of_line_range. split.
  - lia.
  - by intros ?%not_elem_of_empty.
Qed.

(** X13: a span whose end line lies before its start line holds no line,
    as the empty [range] it is built from.  An unreachable block with such
    a span leaves the visitor exactly as it was, and statements that
    truncation removed with such a span add nothing to the skipped lines. *)
Theorem X13_inverted_span_adds_nothing l e body self next_def rest :
  (e < l)%Z →
  visit_block (mkBlock l (Some e) body true) self
  = (mkBlock l (Some e) body true, self)
  ∧ (line next_def = l →
     end_line (List.last (next_def :: rest) next_def) = Some e →
     truncated_span (next_def :: rest) = ∅
     ∧ ∀ opts done a,
         failing opts a = true →
         skipped_lines (visit_defs opts done (a :: next_def :: rest) self).2
         = skipped_lines (accept a self).2).
Proof.
  intros Hel. split.
  - rewrite visit_block_unreachable, line_range_inverted by done.
    by rewrite add_skipped_lines_empty.
  - intros Hl He.
    assert (truncated_span (next_def :: rest) = ∅) as Hspan.
    { unfold PreAnalysis.truncated_span. rewrite He, Hl.
      by apply line_range_inverted. }
    split; [exact Hspan|]. intros opts done a Ha.
    rewrite visit_defs_run. cbn [snd PreAnalysis.kept_defs PreAnalysis.removed_defs].
    rewrite Ha, Hspan, add_skipped_lines_empty, mapM_cons_run. done.
Qed.

End Properties.


(** ** The theorems at work on concrete modules *)

Section Scenarios.
Import Scenario.
Local Open Scope Z_scope.

(** C3 (as amended): on linux, a top-level [if sys.platform == "win32":]
    that the walker reaches gets its body block marked unreachable and left
    as it was: an import in it is not visited and keeps the top-level tag it
    had (false after parsing).  The lines of the block are in the
    skipped-line set when the block has an end line. *)
Theorem C3_dead_platform_branch
    self pre post l e bl be body u else_body path stub flag fs fnam mod_id opts :
  Options.platform opts = "linux" →
  Forall (λ s, failing opts s = false) pre →
  let file :=
    mkMypyFile
      (pre ++ IfStmt l e [PlatformEq "win32"] [mkBlock bl be body u] else_body
           :: post)
      path stub flag fs in
  let file' := cur_mod_node (visit_file self file fnam mod_id opts) in
  (∃ else_body',
     defs file' !! length pre
     = Some (IfStmt l e [PlatformEq "win32"] [mkBlock bl be body true]
               else_body'))
  ∧ (∀ e' x, be = Some e' → bl ≤ x ≤ e' → x ∈ file_skipped_lines file').
Proof.
  intros Hlinux Hpre file file'.
  destruct (visit_file_reaches infer_reachability_of_if_statement
              infer_reachability_of_match_statement assert_will_always_fail
              is_package_init_file self file fnam mod_id opts pre
              (IfStmt l e [PlatformEq "win32"] [mkBlock bl be body u] else_body)
              post eq_refl Hpre)
    as (self1 & Hopts & Hscope & Hnth).
  fold file' in Hnth.
  assert (∃ else_body',
            (accept
               (IfStmt l e [PlatformEq "win32"] [mkBlock bl be body u] else_body)
               self1).1
            = IfStmt l e [PlatformEq "win32"] [mkBlock bl be body true]
                else_body') as [else_body' Hif].
  { rewrite accept_IfStmt, bind_run. cbn [gets fst snd]. cbn zeta.
    rewrite Hopts. cbn [infer_reachability_of_if_statement if_tags
                        infer_condition_value].
    rewrite Hlinux. cbn [String.eqb Ascii.eqb Bool.eqb fst snd].
    rewrite !bind_run. cbn [mapM_marked hd tl].
    rewrite !bind_run, visit_block_marked_mark. cbn [mark_block_unreachable].
    rewrite orb_true_r, visit_block_unreachable. cbn [fst snd ret mret M_ret].
    eauto. }
  rewrite Hif in Hnth. split; [eauto|].
  intros e' x -> Hx. unfold file'. rewrite visit_file_skipped. fold file'.
  apply elem_of_union_l, elem_of_spans. exists true, bl, e', body. split; [|done].
  eapply elem_of_concat_map.
  - eapply list_elem_of_lookup_2. exact Hnth.
  - cbn. apply list_elem_of_further, list_elem_of_further, list_elem_of_here.
Qed.

(** [import a; assert sys.platform == "bogus"; import b; import c] on linux
    keeps two statements and skips lines 3 and 4. *)
Lemma C1_truncation_keeps_prefix_witness :
  let file' :=
    cur_mod_node
      (visit_file (idle truncated_module) truncated_module "m.py" "m" linux) in
  length (defs file') = 2%nat
  ∧ map untagged (defs file')
    = [import_ 1 "a"; AssertStmt 2 (Some 2) (PlatformEq "bogus") None]
  ∧ 3 ∈ file_skipped_lines file' ∧ 4 ∈ file_skipped_lines file'.
Proof.
  destruct (C1_truncation_keeps_prefix
              infer_reachability_of_if_statement
              infer_reachability_of_match_statement
              assert_will_always_fail is_package_init_file
              (idle truncated_module) truncated_module "m.py" "m" linux
              [import_ 1 "a"]
              (AssertStmt 2 (Some 2) (PlatformEq "bogus") None)
              [import_ 3 "b"; import_ 4 "c"])
    as (_ & Hlen & Hsame & Hspan & _).
  - reflexivity.
  - discriminate.
  - repeat constructor.
  - reflexivity.
  - split; [exact Hlen|]. split; [exact Hsame|].
    split; apply (Hspan 4); first [reflexivity | cbn; lia].
Defined.

(** C1 as stated fails: in [assert sys.platform == "bogus"; x = y; import b]
    on linux the assignment has no end line, and lines 2 to 3 of the removed
    statements are recorded all the same, the last one having an end line. *)
Lemma C1_counterexample :
  let file := mixed_end_lines_module in
  let file' := cur_mod_node (visit_file (idle file) file "m.py" "m" linux) in
  ¬ (Exists (λ s, end_line s = None) (removed_defs linux (defs file)) →
     file_skipped_lines file'
     = skipped_lines
         (mapM accept (kept_defs linux (defs file))
            (fresh_visitor file "m" linux)).2).
Proof.
  intros file file' H.
  assert (2 ∈ file_skipped_lines file') as Hin by (vm_compute; reflexivity).
  rewrite H in Hin.
  - vm_compute in Hin. discriminate.
  - apply Exists_cons_hd. reflexivity.
Qed.

(** [import a; assert sys.platform == "bogus"] on linux keeps both
    statements and skips no line. *)
Lemma C7_failing_assert_last_witness :
  let file' :=
    cur_mod_node
      (visit_file (idle assert_last_module) assert_last_module "m.py" "m" linux) in
  length (defs file') = length (defs assert_last_module)
  ∧ file_skipped_lines file'
    = skipped_lines
        (mapM accept (defs assert_last_module)
           (fresh_visitor assert_last_module "m" linux)).2
  ∧ file_skipped_lines file' = ∅.
Proof.
  destruct (C7_failing_assert_last
              infer_reachability_of_if_statement
              infer_reachability_of_match_statement
              assert_will_always_fail is_package_init_file
              (idle assert_last_module) assert_last_module "m.py" "m" linux
              [import_ 1 "a"]
              (AssertStmt 2 (Some 2) (PlatformEq "bogus") None))
    as (_ & Hlen & _ & _ & Hskip).
  - reflexivity.
  - repeat constructor.
  - reflexivity.
  - split; [exact Hlen|]. split; [exact Hskip|]. rewrite Hskip. reflexivity.
Defined.

(** A dead block is left alone and its lines 5 to 6 are recorded; a live
    one is walked. *)
Lemma C2_visit_block_witness :
  (visit_block dead_block (idle platform_module)).1 = dead_block
  ∧ skipped_lines (visit_block dead_block (idle platform_module)).2
    = skipped_lines (idle platform_module) ∪ line_range 5 6
  ∧ (∀ x, x ∈ skipped_lines (visit_block dead_block (idle platform_module)).2
          ↔ x ∈ skipped_lines (idle platform_module) ∨ 5 ≤ x ≤ 6)
  ∧ visit_block live_block (idle platform_module)
    = (mkBlock 5 (Some 6)
         (mapM accept [import_ 6 "x"] (idle platform_module)).1 false,
       (mapM accept [import_ 6 "x"] (idle platform_module)).2).
Proof.
  destruct (C2_visit_block infer_reachability_of_if_statement
              infer_reachability_of_match_statement is_package_init_file
              dead_block (idle platform_module)) as (Hdead & _ & _).
  destruct (Hdead eq_refl) as (Hnode & _ & Hsome & _).
  destruct (Hsome 6 eq_refl) as (_ & Hlines & Hiff).
  destruct (C2_visit_block infer_reachability_of_if_statement
              infer_reachability_of_match_statement is_package_init_file
              live_block (idle platform_module)) as (_ & Hlive & _).
  split; [exact Hnode|]. split; [exact Hlines|]. split; [exact Hiff|].
  exact (Hlive eq_refl).
Defined.

Lemma C6_visit_if_stmt_witness :
  let out := accept platform_else (fresh_visitor platform_module "m" linux) in
  ∃ arms last,
    out.1 = IfStmt 1 (Some 4) [PlatformEq "linux"] arms last
    ∧ arms !! 0%nat
      = Some (mkBlock 2 (Some 2) [Import 2 (Some 2) [("a", None)] true] false)
    ∧ last = Some (mkBlock 4 (Some 4) [import_ 4 "b"] true)
    ∧ 4 ∈ skipped_lines out.2.
Proof.
  intros out.
  destruct (C6_visit_if_stmt infer_reachability_of_if_statement
              infer_reachability_of_match_statement is_package_init_file
              1 (Some 4) [PlatformEq "linux"]
              [mkBlock 2 (Some 2) [import_ 2 "a"] false]
              (Some (mkBlock 4 (Some 4) [import_ 4 "b"] false))
              (fresh_visitor platform_module "m" linux))
    as (Hrun & _ & _ & _ & _ & _ & _ & Harm & Helse & _ & _ & Hlines & _).
  eexists _, _. split; [|split; [|split]].
  - unfold out, platform_else. rewrite Hrun. reflexivity.
  - exact (Harm 0%nat 2 (Some 2) [import_ 2 "a"] false eq_refl).
  - exact (Helse 4 (Some 4) [import_ 4 "b"] false eq_refl).
  - unfold out, platform_else. rewrite Hrun. cbn [snd]. apply Hlines. right.
    exists true, 4, 4, [import_ 4 "b"]. split; [|lia].
    apply elem_of_app. right. apply list_elem_of_here.
Defined.

(** [if sys.platform == "win32": import xyz] on linux: the block is marked
    unreachable and line 2 is skipped. *)
Lemma C3_dead_platform_branch_witness :
  let file' :=
    cur_mod_node
      (visit_file (idle platform_module) platform_module "m.py" "m" linux) in
  (∃ else_body',
     defs file' !! 0%nat
     = Some (IfStmt 1 (Some 2) [PlatformEq "win32"]
               [mkBlock 2 (Some 2) [import_ 2 "xyz"] true] else_body'))
  ∧ 2 ∈ file_skipped_lines file'.
Proof.
  destruct (C3_dead_platform_branch (idle platform_module) [] []
              1 (Some 2) 2 (Some 2) [import_ 2 "xyz"] false None
              "m.py" false false ∅ "m.py" "m" linux eq_refl (Forall_nil_2 _))
    as [Hnode Hlines].
  split; [exact Hnode|]. apply (Hlines 2 2 eq_refl). lia.
Defined.

(** C3 as stated fails: the import in the dead branch is not visited, so
    its top-level tag stays false. *)
Lemma C3_counterexample :
  let file' :=
    cur_mod_node
      (visit_file (idle platform_module) platform_module "m.py" "m" linux) in
  ¬ (∀ l e guards bl be body u else_body imp t,
       defs file' = [IfStmt l e guards [mkBlock bl be body u] else_body] →
       imp ∈ body → import_tag imp = Some t → t = true).
Proof.
  intros file' H.
  specialize (H 1 (Some 2) [PlatformEq "win32"] 2 (Some 2) [import_ 2 "xyz"]
                true None (import_ 2 "xyz") false eq_refl).
  discriminate H; [apply list_elem_of_here | reflexivity].
Qed.

(** [pkg/__init__.pyi] with a module-level [__getattr__]: the flag is set. *)
Lemma C4_stub_package_flag_witness :
  is_partial_stub_package
    (cur_mod_node
       (visit_file (idle stub_package) stub_package "pkg/__init__.pyi" "pkg" linux))
  = true.
Proof.
  destruct (C4_stub_package_flag infer_reachability_of_if_statement
              infer_reachability_of_match_statement assert_will_always_fail
              is_package_init_file) as [_ H].
  destruct (H (idle stub_package) stub_package "pkg/__init__.pyi" "pkg" linux)
    as (_ & _ & Hiff).
  apply (Hiff eq_refl). split; [reflexivity|]. split; [reflexivity|].
  eexists 1, (Some 2), _. apply list_elem_of_here.
Defined.

(** [def f(): (def g(): import c); import b]: both imports get the tag
    false, wherever the walk of [f] starts from. *)
Lemma C5_import_tags_witness :
  let s' := (accept nested_defs (fresh_visitor platform_module "m" linux)).1 in
  let import_b : Statement Guard := Import 4 (Some 4) [("b", None)] false in
  is_scope_def nested_defs = true
  ∧ (false, NStmt import_b) ∈ reached true s'
  ∧ import_tag import_b = Some false
  ∧ false = false.
Proof.
  intros s' import_b.
  assert ((false, NStmt import_b) ∈ reached true s') as Hin.
  { do 5 apply list_elem_of_further. apply list_elem_of_here. }
  split; [reflexivity|]. split; [exact Hin|]. split; [reflexivity|].
  destruct (C5_import_tags infer_reachability_of_if_statement
              infer_reachability_of_match_statement assert_will_always_fail
              is_package_init_file) as (_ & _ & _ & H & _).
  exact (H nested_defs (fresh_visitor platform_module "m" linux) false
           import_b false eq_refl Hin eq_refl).
Defined.

(** A failing assert inside a function does not truncate; the one at top
    level does. *)
Lemma C8_truncation_only_at_top_level_witness :
  length
    (defs (cur_mod_node
             (visit_file (idle nested_assert_module) nested_assert_module
                "m.py" "m" linux)))
  = 2%nat
  ∧ length
      (defs (cur_mod_node
               (visit_file (idle truncated_module) truncated_module
                  "m.py" "m" linux)))
    = 2%nat.
Proof.
  destruct (C8_truncation_only_at_top_level infer_reachability_of_if_statement
              infer_reachability_of_match_statement assert_will_always_fail
              is_package_init_file (idle nested_assert_module)
              nested_assert_module "m.py" "m" linux) as (_ & Hwhole & _).
  destruct Hwhole as (_ & Hlen & _); [repeat constructor|].
  destruct (C8_truncation_only_at_top_level infer_reachability_of_if_statement
              infer_reachability_of_match_statement assert_will_always_fail
              is_package_init_file (idle truncated_module)
              truncated_module "m.py" "m" linux) as (_ & _ & Hcut).
  destruct (Hcut [import_ 1 "a"]
              (AssertStmt 2 (Some 2) (PlatformEq "bogus") None)
              [import_ 3 "b"; import_ 4 "c"] eq_refl)
    as (_ & Hlen' & _); [repeat constructor | reflexivity |].
  split; [exact Hlen | exact Hlen'].
Defined.

(** Line 3 of [import a; assert ...; import b; import c] is skipped because
    it lies in the span of the removed statements, lines 3 to 4. *)
Lemma C9_skipped_lines_grow_within_spans_witness :
  let out := visit_file (idle truncated_module) truncated_module "m.py" "m" linux in
  (∃ top l e body,
     (top, NBlock (mkBlock l (Some e) body true))
       ∈ concat (map (reached true) (defs (cur_mod_node out)))
     ∧ l ≤ 3 ≤ e)
  ∨ (∃ next_def rest e,
       removed_defs linux (defs truncated_module) = next_def :: rest
       ∧ end_line (List.last (removed_defs linux (defs truncated_module)) next_def)
         = Some e
       ∧ line next_def ≤ 3 ≤ e).
Proof.
  destruct (C9_skipped_lines_grow_within_spans
              infer_reachability_of_if_statement
              infer_reachability_of_match_statement assert_will_always_fail
              is_package_init_file) as (_ & _ & _ & H).
  destruct (H (idle truncated_module) truncated_module "m.py" "m" linux)
    as [_ Hin].
  apply (Hin 3). vm_compute. reflexivity.
Defined.

(** *** The further properties at work *)

Lemma if_oracle_reads_no_tag (s1 s2 : Statement Guard) o :
  untagged s1 = untagged s2 →
  infer_reachability_of_if_statement s1 o
  = infer_reachability_of_if_statement s2 o.
Proof.
  destruct s1, s2; intros H; try discriminate H; try reflexivity.
  by inversion H.
Qed.

Lemma match_oracle_reads_no_tag (s1 s2 : Statement Guard) o :
  untagged s1 = untagged s2 →
  infer_reachability_of_match_statement s1 o
  = infer_reachability_of_match_statement s2 o.
Proof.
  destruct s1, s2; intros H; try discriminate H; try reflexivity.
  by inversion H.
Qed.

Lemma X2_flag_untouched_in_nested_scope_witness :
  is_partial_stub_package
    (cur_mod_node (accept class_with_getattr (idle stub_package)).2)
  = is_partial_stub_package (cur_mod_node (idle stub_package)).
Proof.
  destruct (X2_flag_untouched_in_nested_scope infer_reachability_of_if_statement
              infer_reachability_of_match_statement is_package_init_file)
    as [Hnested _].
  apply Hnested. reflexivity.
Defined.

Lemma X3_plain_module_untouched_witness :
  defs (cur_mod_node
          (visit_file (idle plain_module) plain_module "m.py" "m" linux))
  = defs plain_module
  ∧ file_skipped_lines
      (cur_mod_node
         (visit_file (idle plain_module) plain_module "m.py" "m" linux))
    = ∅.
Proof.
  destruct (X3_plain_module_untouched infer_reachability_of_if_statement
              infer_reachability_of_match_statement assert_will_always_fail
              is_package_init_file (idle plain_module) plain_module
              "m.py" "m" linux eq_refl) as (Hdefs & _ & _ & Hlines & _).
  split; [exact Hdefs | exact Hlines].
Defined.

Lemma X5_visit_for_stmt_witness :
  optM visit_block None
    (visit_block (mkBlock 2 (Some 2) [import_ 2 "a"] false)
       (idle platform_module)).2
  = (None,
     (visit_block (mkBlock 2 (Some 2) [import_ 2 "a"] false)
        (idle platform_module)).2).
Proof.
  destruct (X5_visit_for_stmt infer_reachability_of_if_statement
              infer_reachability_of_match_statement is_package_init_file
              1 (Some 2) (NameExpr "i") (NameExpr "xs")
              (mkBlock 2 (Some 2) [import_ 2 "a"] false) None
              (idle platform_module)) as (_ & _ & Hnone & _).
  exact (Hnone eq_refl).
Defined.

Lemma X6_result_is_a_prefix_witness :
  ∃ a,
    last (defs (cur_mod_node
                  (visit_file (idle truncated_module) truncated_module
                     "m.py" "m" linux)))
    = Some a
    ∧ failing linux a = true.
Proof.
  destruct (X6_result_is_a_prefix infer_reachability_of_if_statement
              infer_reachability_of_match_statement assert_will_always_fail
              is_package_init_file (idle truncated_module) truncated_module
              "m.py" "m" linux) as (_ & _ & Hshort & _).
  apply Hshort. vm_compute. lia.
Defined.

Lemma X7_visit_reads_options_and_scope_witness :
  accept nested_defs (idle truncated_module)
  = ((accept nested_defs (idle platform_module)).1,
     PreAnalysis.advance is_package_init_file (idle truncated_module)
       (reached false (accept nested_defs (idle platform_module)).1)).
Proof.
  exact (X7_visit_reads_options_and_scope infer_reachability_of_if_statement
           infer_reachability_of_match_statement is_package_init_file
           nested_defs (idle platform_module) (idle truncated_module)
           eq_refl eq_refl).
Defined.

Lemma X8_pass_over_concatenation_witness :
  let part l :=
    visit_file (idle truncated_module)
      (mkMypyFile l "m.py" false false ∅) "m.py" "m" linux in
  defs (cur_mod_node
          (visit_file (idle truncated_module) truncated_module "m.py" "m" linux))
  = defs (cur_mod_node (part [import_ 1 "a"]))
    ++ defs (cur_mod_node
               (part [AssertStmt 2 (Some 2) (PlatformEq "bogus") None;
                      import_ 3 "b"; import_ 4 "c"])).
Proof.
  destruct (X8_pass_over_concatenation infer_reachability_of_if_statement
              infer_reachability_of_match_statement assert_will_always_fail
              is_package_init_file (idle truncated_module) truncated_module
              "m.py" "m" linux [import_ 1 "a"]
              [AssertStmt 2 (Some 2) (PlatformEq "bogus") None;
               import_ 3 "b"; import_ 4 "c"] eq_refl)
    as (Hdefs & _); [repeat constructor|].
  exact Hdefs.
Defined.

Lemma X9_nothing_tagged_nothing_skipped_witness :
  skipped_lines
    (PreAnalysis.accept undecided_if undecided_match is_package_init_file
       platform_check (idle platform_module)).2
  = skipped_lines (idle platform_module).
Proof.
  destruct (X9_nothing_tagged_nothing_skipped undecided_if undecided_match
              assert_will_always_fail is_package_init_file) as [Hstmt _].
  - intros s o. split; [apply Forall_nil_2 | reflexivity].
  - intros s o. apply Forall_nil_2.
  - destruct (Hstmt platform_check (idle platform_module) eq_refl) as [_ Hlines].
    exact Hlines.
Defined.

Lemma X10_second_visit_changes_nothing_witness :
  (accept (accept platform_check (idle platform_module)).1
     (accept platform_check (idle platform_module)).2).1
  = (accept platform_check (idle platform_module)).1.
Proof.
  destruct (X10_second_visit_changes_nothing infer_reachability_of_if_statement
              infer_reachability_of_match_statement is_package_init_file
              platform_check (idle platform_module) (idle platform_module)
              if_oracle_reads_no_tag match_oracle_reads_no_tag
              eq_refl eq_refl) as (_ & Hsame & _).
  exact Hsame.
Defined.

Lemma X11_second_pass_witness :
  let out1 :=
    visit_file (idle truncated_module) truncated_module "m.py" "m" linux in
  defs (cur_mod_node
          (visit_file (idle truncated_module) (cur_mod_node out1)
             "m.py" "m" linux))
  = defs (cur_mod_node out1).
Proof.
  destruct (X11_second_pass infer_reachability_of_if_statement
              infer_reachability_of_match_statement assert_will_always_fail
              is_package_init_file (idle truncated_module)
              (idle truncated_module) truncated_module "m.py" "m.py" "m" "m"
              linux if_oracle_reads_no_tag match_oracle_reads_no_tag)
    as (Hdefs & _).
  exact Hdefs.
Defined.

Lemma X12_visit_writes_tags_only_witness : all_reachable nested_defs = true.
Proof.
  destruct (X12_visit_writes_tags_only infer_reachability_of_if_statement
              infer_reachability_of_match_statement is_package_init_file
              nested_defs (idle platform_module)) as (_ & _ & _ & Hkept).
  apply Hkept. reflexivity.
Defined.

Lemma X13_inverted_span_adds_nothing_witness :
  visit_block (mkBlock 5 (Some 4) [import_ 5 "x"] true) (idle platform_module)
  = (mkBlock 5 (Some 4) [import_ 5 "x"] true, idle platform_module).
Proof.
  destruct (X13_inverted_span_adds_nothing infer_reachability_of_if_statement
              infer_reachability_of_match_statement assert_will_always_fail
              is_package_init_file 5 4 [import_ 5 "x"] (idle platform_module)
              (import_ 5 "x") []) as [Hblock _]; [lia|].
  exact Hblock.
Defined.

End Scenarios.
